(** * Banking ledger: a shallow embedding of the account and transaction services

    The development follows the TypeScript sources:
    - [models/account.ts], [models/transaction.ts], [models/ledgerEntry.ts]
      give the three document types and the schema validators;
    - [config/database.ts] gives [useTransactions] and [connectDB];
    - [services/accountService.ts] gives [createAccount] and [closeAccount];
    - [services/transactionService.ts] gives [deposit], [withdraw] and
      [transfer].

    Modelling choices.
    - A JavaScript [number] holding money is an exact rational ([Qc]), so
      rounding, NaN and infinities are out of scope.
    - A MongoDB collection with its unique [_id] index is a finite map from
      [_id] to the remaining fields; a document is the pair of both.  The
      ledger collection is only ever appended to and is kept as the list of
      its entries in insertion order.
    - Every [await] on the store is a point where the driver may throw (the
      server is away, a unique index is violated, ...).  The world carries
      the list of these coming outcomes ([faults]).
    - A multi-document transaction works on a private copy of the
      collections ([txn]); [commitTransaction] publishes the copy,
      [abortTransaction] drops it.  Reads and writes that are not given the
      session bypass the copy and hit the committed collections.
    - The [createdAt]/[updatedAt] stamps that mongoose maintains, and the
      [uppercase]/[trim] setters of the currency paths, are not modelled. *)

From Stdlib Require Import QArith Qcanon Qround.
From stdpp Require Import base numbers strings list gmap.

Local Open Scope string_scope.
Local Open Scope list_scope.
Local Open Scope Qc_scope.

(** ** Documents *)

Abbreviation ObjectId := N (only parsing).
Abbreviation Date := N (only parsing).
Abbreviation Metadata := (list (string * string)) (only parsing).

Inductive AccountType := ASSET | LIABILITY | EQUITY | REVENUE | EXPENSE.
Inductive AccountStatus := ACTIVE | FROZEN | CLOSED.
Inductive TransactionType := DEPOSIT | WITHDRAWAL | TRANSFER | FEE | ADJUSTMENT.
Inductive TransactionStatus := PENDING | COMPLETED | FAILED | CANCELLED.
Inductive EntryType := DEBIT | CREDIT.

Module Account.
Record t := mk {
  userId : ObjectId;
  accountNumber : N;
  name : string;
  type : AccountType;
  currency : string;
  balance : Qc;
  availableBalance : Qc;
  status : AccountStatus;
  metadata : Metadata
}.

Definition set_balances (b ab : Qc) (a : t) : t :=
  mk (userId a) (accountNumber a) (name a) (type a) (currency a)
     b ab (status a) (metadata a).

Definition set_status (s : AccountStatus) (a : t) : t :=
  mk (userId a) (accountNumber a) (name a) (type a) (currency a)
     (balance a) (availableBalance a) s (metadata a).

(** [required: true] on a string path rejects the empty string. *)
Definition validate (a : t) : bool :=
  negb (String.eqb (name a) "") && negb (String.eqb (currency a) "").
End Account.

Module Transaction.
Record t := mk {
  transactionId : N;
  userId : ObjectId;
  type : TransactionType;
  amount : Qc;
  currency : string;
  sourceAccountId : option ObjectId;
  destinationAccountId : option ObjectId;
  description : string;
  status : TransactionStatus;
  metadata : Metadata;
  completedAt : option Date
}.

Definition complete (at_ : Date) (x : t) : t :=
  mk (transactionId x) (userId x) (type x) (amount x) (currency x)
     (sourceAccountId x) (destinationAccountId x) (description x)
     COMPLETED (metadata x) (Some at_).

(** [amount: { min: 0.01 }] and the required [description]. *)
Definition validate (x : t) : bool :=
  bool_decide (Q2Qc (1 # 100) ≤ amount x)
  && negb (String.eqb (description x) "")
  && negb (String.eqb (currency x) "").
End Transaction.

Module LedgerEntry.
Record t := mk {
  transactionId : ObjectId;
  accountId : ObjectId;
  type : EntryType;
  amount : Qc;
  currency : string;
  balance : Qc;
  description : string
}.

Definition validate (e : t) : bool :=
  bool_decide (Q2Qc (1 # 100) ≤ amount e)
  && negb (String.eqb (description e) "")
  && negb (String.eqb (currency e) "").
End LedgerEntry.

(** A document: its [_id] and its fields. *)
Definition Doc (A : Type) : Type := ObjectId * A.
Definition _id {A} (d : Doc A) : ObjectId := fst d.
Definition fields {A} (d : Doc A) : A := snd d.

(** ** The store and the world around one request *)

Record Collections := mkCollections {
  accounts : gmap N Account.t;
  transactions : gmap N Transaction.t;
  ledgerEntries : list LedgerEntry.t
}.

Definition set_accounts (f : gmap N Account.t → gmap N Account.t)
    (c : Collections) : Collections :=
  mkCollections (f (accounts c)) (transactions c) (ledgerEntries c).
Definition set_transactions (f : gmap N Transaction.t → gmap N Transaction.t)
    (c : Collections) : Collections :=
  mkCollections (accounts c) (f (transactions c)) (ledgerEntries c).
Definition set_ledgerEntries (f : list LedgerEntry.t → list LedgerEntry.t)
    (c : Collections) : Collections :=
  mkCollections (accounts c) (transactions c) (f (ledgerEntries c)).

Definition noCollections : Collections := mkCollections ∅ ∅ [].

Inductive LogLevel := INFO | WARN | ERROR.

Record World := mkWorld {
  durable : Collections;        (* what every reader sees *)
  txn : option Collections;     (* copy of the open multi-document transaction *)
  faults : list bool;           (* coming store calls: [true] throws *)
  random : list N;              (* coming draws of Math.random and uuid *)
  clock : Date;                 (* what [new Date()] answers next *)
  log : list (LogLevel * string)
}.

Definition set_durable (c : Collections) (w : World) : World :=
  mkWorld c (txn w) (faults w) (random w) (clock w) (log w).
Definition set_txn (t : option Collections) (w : World) : World :=
  mkWorld (durable w) t (faults w) (random w) (clock w) (log w).
Definition set_faults (fs : list bool) (w : World) : World :=
  mkWorld (durable w) (txn w) fs (random w) (clock w) (log w).
Definition set_random (r : list N) (w : World) : World :=
  mkWorld (durable w) (txn w) (faults w) r (clock w) (log w).
Definition set_clock (c : Date) (w : World) : World :=
  mkWorld (durable w) (txn w) (faults w) (random w) c (log w).
Definition set_log (l : list (LogLevel * string)) (w : World) : World :=
  mkWorld (durable w) (txn w) (faults w) (random w) (clock w) l.

(** ** Promises: state and exceptions *)

Inductive exn :=
  | Error (message : string)     (* [throw new Error(message)] *)
  | ValidationError              (* a schema validator rejected a document *)
  | MongoError                   (* the driver or the server failed *)
  | ProcessExit (code : Z).      (* [process.exit(code)] *)

Inductive Completion (A : Type) :=
  | Return (a : A)
  | Throw (e : exn).
Arguments Return {A} a.
Arguments Throw {A} e.

Definition Async (A : Type) : Type := World → Completion A * World.

Definition ret {A} (a : A) : Async A := λ w, (Return a, w).
Definition throw {A} (e : exn) : Async A := λ w, (Throw e, w).
Definition bind {A B} (m : Async A) (k : A → Async B) : Async B :=
  λ w, match m w with
       | (Return a, w') => k a w'
       | (Throw e, w') => (Throw e, w')
       end.

Declare Scope async_scope.
Delimit Scope async_scope with async.
Notation "'await' x ← m ; k" := (bind m (λ x, k))
  (at level 10, x name, m at level 100, k at level 200,
   format "'[v' 'await'  x  ←  m ; '/' k ']'") : async_scope.
Local Open Scope async_scope.

(** [try { body } catch (error) { handler }] *)
Definition try_catch {A} (body : Async A) (handler : exn → Async A) : Async A :=
  λ w, match body w with
       | (Throw e, w') => handler e w'
       | r => r
       end.

(** [try { body } finally { cleanup }]: the cleanup always runs, and its own
    exception, if any, replaces the completion of the body. *)
Definition try_finally {A} (body : Async A) (cleanup : Async unit) : Async A :=
  λ w, match body w with
       | (r, w') => match cleanup w' with
                    | (Return _, w'') => (r, w'')
                    | (Throw e, w'') => (Throw e, w'')
                    end
       end.

(** ** The driver: sessions, reads and writes *)

(** One round trip to the store: it throws when the next fault is set. *)
Definition storeCall : Async unit :=
  λ w, match faults w with
       | true :: fs => (Throw MongoError, set_faults fs w)
       | false :: fs => (Return tt, set_faults fs w)
       | [] => (Return tt, w)
       end.

Inductive ClientSession := Session.

(** The collections an operation works on: the private copy when it is given
    the session and a transaction is open, the committed ones otherwise. *)
Definition view (session : option ClientSession) (w : World) : Collections :=
  match session, txn w with
  | Some _, Some c => c
  | _, _ => durable w
  end.

Definition write (session : option ClientSession)
    (f : Collections → Collections) (w : World) : World :=
  match session, txn w with
  | Some _, Some c => set_txn (Some (f c)) w
  | _, _ => set_durable (f (durable w)) w
  end.

Definition startSession : Async ClientSession :=
  await _ ← storeCall; ret Session.

Definition startTransaction (_ : ClientSession) : Async unit :=
  λ w, (Return tt, set_txn (Some (durable w)) w).

Definition commitTransaction (_ : ClientSession) : Async unit :=
  await _ ← storeCall;
  λ w, match txn w with
       | Some c => (Return tt, set_txn None (set_durable c w))
       | None => (Throw MongoError, w)
       end.

Definition abortTransaction (_ : ClientSession) : Async unit :=
  await _ ← (λ w, (Return tt, set_txn None w));
  storeCall.

Definition endSession (_ : ClientSession) : Async unit :=
  λ w, (Return tt, set_txn None w).

(** [new Model({...})] draws a new [_id]; it collides with no stored one. *)
Definition usedIds (c : Collections) : gset N :=
  dom (accounts c) ∪ dom (transactions c).

Definition newObjectId : Async ObjectId :=
  λ w, (Return (fresh (usedIds (durable w) ∪ from_option usedIds ∅ (txn w))), w).

Definition newDate : Async Date :=
  λ w, (Return (clock w), set_clock (N.succ (clock w)) w).

Definition draw : Async N :=
  λ w, match random w with
       | r :: rs => (Return r, set_random rs w)
       | [] => (Return 0%N, w)
       end.

Definition logger (level : LogLevel) (message : string) : Async unit :=
  λ w, (Return tt, set_log (log w ++ [(level, message)]) w).

(** ** The three models *)

Inductive AccountQuery :=
  | ById (id : ObjectId)
  | ByIdAndUser (id userId : ObjectId)
  | ByAccountNumber (accountNumber : N).

Definition matchAccount (q : AccountQuery) (c : Collections)
    : option (Doc Account.t) :=
  match q with
  | ById id => (λ a, (id, a)) <$> accounts c !! id
  | ByIdAndUser id userId =>
      match accounts c !! id with
      | Some a => if decide (Account.userId a = userId) then Some (id, a) else None
      | None => None
      end
  | ByAccountNumber n =>
      head (filter (λ d, Account.accountNumber (snd d) = n)
                   (map_to_list (accounts c)))
  end.

Definition Account_findOne (q : AccountQuery) (session : option ClientSession)
    : Async (option (Doc Account.t)) :=
  await _ ← storeCall;
  λ w, (Return (matchAccount q (view session w)), w).

(** [save()] of a document made by [new Account(...)]: validate, then insert. *)
Definition Account_create (d : Doc Account.t) (session : option ClientSession)
    : Async unit :=
  if Account.validate (fields d) then
    await _ ← storeCall;
    λ w, (Return tt, write session (set_accounts <[_id d := fields d]>) w)
  else throw ValidationError.

(** [save()] of a document read from the store.  Mongoose writes the paths
    modified since the read; within one request that is the same as writing
    the document held in memory.  The services only modify number and enum
    paths of such a document, which always validate. *)
Definition Account_save (d : Doc Account.t) (session : option ClientSession)
    : Async unit :=
  await _ ← storeCall;
  λ w, (Return tt, write session (set_accounts <[_id d := fields d]>) w).

Definition Transaction_create (d : Doc Transaction.t)
    (session : option ClientSession) : Async unit :=
  if Transaction.validate (fields d) then
    await _ ← storeCall;
    λ w, (Return tt, write session (set_transactions <[_id d := fields d]>) w)
  else throw ValidationError.

Definition Transaction_save (d : Doc Transaction.t)
    (session : option ClientSession) : Async unit :=
  await _ ← storeCall;
  λ w, (Return tt, write session (set_transactions <[_id d := fields d]>) w).

Definition LedgerEntry_create (e : LedgerEntry.t)
    (session : option ClientSession) : Async unit :=
  if LedgerEntry.validate e then
    await _ ← storeCall;
    λ w, (Return tt, write session (set_ledgerEntries (λ l, l ++ [e])) w)
  else throw ValidationError.

(** ** config/database.ts *)

Record ProcessEnv := mkEnv {
  NODE_ENV_var : option string;
  MONGODB_URI_var : option string
}.

Definition NODE_ENV (env : ProcessEnv) : string :=
  default "development" (NODE_ENV_var env).

(** Flag to determine if transactions should be used. *)
Definition useTransactions (env : ProcessEnv) : bool :=
  String.eqb (NODE_ENV env) "production".

Definition connectDB (env : ProcessEnv) : Async unit :=
  try_catch
    (await _ ← storeCall;                              (* mongoose.connect *)
     await _ ← logger INFO "MongoDB connected successfully";
     if useTransactions env then
       try_catch
         (await session ← startSession;
          await _ ← endSession session;
          logger INFO "MongoDB transaction support verified")
         (λ error,
          await _ ← logger ERROR "MongoDB transaction support unavailable:";
          logger WARN "Running in fallback mode without transaction support. NOT recommended for production!")
     else
       logger INFO "Running in development mode without transaction support")
    (λ error,
     await _ ← logger ERROR "MongoDB connection error:";
     throw (ProcessExit 1)).

(** ** utils/helpers.ts *)

(** [Math.floor(Math.random() * 9000000000) + 1000000000]: the draw is taken
    as already scaled to a natural number. *)
Definition candidateNumber (r : N) : N := (r mod 9000000000 + 1000000000)%N.

(** The loop of [generateAccountNumber] runs once per draw; when the draws of
    the world are used up without a unique number the model gives up with
    [None] (the source would keep looping). *)
Fixpoint generateAccountNumber_loop (draws : list N) (w : World)
    : option (Completion N * World) :=
  match draws with
  | [] => None
  | r :: rest =>
      let accountNumber := candidateNumber r in
      match Account_findOne (ByAccountNumber accountNumber) None
              (set_random rest w) with
      | (Return None, w') => Some (Return accountNumber, w')
      | (Return (Some _), w') => generateAccountNumber_loop rest w'
      | (Throw e, w') => Some (Throw e, w')
      end
  end.

Definition generateAccountNumber (w : World) : option (Completion N * World) :=
  generateAccountNumber_loop (random w) w.

Definition generateTransactionId : Async N := draw.

(** ** services/transactionService.ts *)

Module DepositInput.
Record t := mk {
  userId : ObjectId;
  accountId : ObjectId;
  amount : Qc;
  currency : string;
  description : string;
  metadata : option Metadata
}.
End DepositInput.

Module WithdrawalInput.
Record t := mk {
  userId : ObjectId;
  accountId : ObjectId;
  amount : Qc;
  currency : string;
  description : string;
  metadata : option Metadata
}.
End WithdrawalInput.

Module TransferInput.
Record t := mk {
  userId : ObjectId;
  sourceAccountId : ObjectId;
  destinationAccountId : ObjectId;
  amount : Qc;
  currency : string;
  description : string;
  metadata : option Metadata
}.
End TransferInput.

(** Create a ledger entry (used within the transaction processing). *)
Definition createLedgerEntry (transactionId accountId : ObjectId)
    (type : EntryType) (amount : Qc) (currency : string) (balance : Qc)
    (description : string) (session : ClientSession) : Async LedgerEntry.t :=
  let entry :=
    LedgerEntry.mk transactionId accountId type amount currency balance
                   description in
  await _ ← LedgerEntry_create entry (Some session);
  ret entry.

(** Create a ledger entry without transaction session. *)
Definition createLedgerEntryWithoutTransaction (transactionId accountId : ObjectId)
    (type : EntryType) (amount : Qc) (currency : string) (balance : Qc)
    (description : string) : Async LedgerEntry.t :=
  let entry :=
    LedgerEntry.mk transactionId accountId type amount currency balance
                   description in
  await _ ← LedgerEntry_create entry None;
  ret entry.

(** Process a deposit with transaction support. *)
Definition depositWithTransaction (depositData : DepositInput.t)
    : Async (Doc Transaction.t) :=
  await session ← startSession;
  await _ ← startTransaction session;
  try_finally
    (try_catch
       (await account ← Account_findOne
            (ByIdAndUser (DepositInput.accountId depositData)
                         (DepositInput.userId depositData))
            (Some session);
        match account with
        | None => throw (Error "Account not found")
        | Some account =>
          if decide (Account.currency (fields account)
                     ≠ DepositInput.currency depositData)
          then throw (Error "Currency mismatch")
          else
            await transactionId ← generateTransactionId;
            await id ← newObjectId;
            let transaction : Doc Transaction.t :=
              (id, Transaction.mk transactionId
                     (DepositInput.userId depositData)
                     DEPOSIT
                     (DepositInput.amount depositData)
                     (DepositInput.currency depositData)
                     None
                     (Some (DepositInput.accountId depositData))
                     (DepositInput.description depositData)
                     PENDING
                     (default [] (DepositInput.metadata depositData))
                     None) in
            await _ ← Transaction_create transaction (Some session);
            await _ ← createLedgerEntry
                 (_id transaction)
                 (DepositInput.accountId depositData)
                 DEBIT
                 (DepositInput.amount depositData)
                 (DepositInput.currency depositData)
                 (Account.balance (fields account)
                  + DepositInput.amount depositData)
                 ("Deposit: " +:+ DepositInput.description depositData)
                 session;
            let account : Doc Account.t :=
              (_id account,
               Account.set_balances
                 (Account.balance (fields account)
                  + DepositInput.amount depositData)
                 (Account.availableBalance (fields account)
                  + DepositInput.amount depositData)
                 (fields account)) in
            await _ ← Account_save account (Some session);
            await now ← newDate;
            let transaction : Doc Transaction.t :=
              (_id transaction, Transaction.complete now (fields transaction)) in
            await _ ← Transaction_save transaction (Some session);
            await _ ← commitTransaction session;
            ret transaction
        end)
       (λ error,
        await _ ← abortTransaction session;
        throw error))
    (endSession session).

(** Process a deposit without transaction support (fallback). *)
Definition depositWithoutTransaction (depositData : DepositInput.t)
    : Async (Doc Transaction.t) :=
  await account ← Account_findOne
       (ByIdAndUser (DepositInput.accountId depositData)
                    (DepositInput.userId depositData))
       None;
  match account with
  | None => throw (Error "Account not found")
  | Some account =>
    if decide (Account.currency (fields account)
               ≠ DepositInput.currency depositData)
    then throw (Error "Currency mismatch")
    else
      await transactionId ← generateTransactionId;
      await id ← newObjectId;
      let transaction : Doc Transaction.t :=
        (id, Transaction.mk transactionId
               (DepositInput.userId depositData)
               DEPOSIT
               (DepositInput.amount depositData)
               (DepositInput.currency depositData)
               None
               (Some (DepositInput.accountId depositData))
               (DepositInput.description depositData)
               PENDING
               (default [] (DepositInput.metadata depositData))
               None) in
      await _ ← Transaction_create transaction None;
      await _ ← createLedgerEntryWithoutTransaction
           (_id transaction)
           (DepositInput.accountId depositData)
           DEBIT
           (DepositInput.amount depositData)
           (DepositInput.currency depositData)
           (Account.balance (fields account) + DepositInput.amount depositData)
           ("Deposit: " +:+ DepositInput.description depositData);
      let account : Doc Account.t :=
        (_id account,
         Account.set_balances
           (Account.balance (fields account)
            + DepositInput.amount depositData)
           (Account.availableBalance (fields account)
            + DepositInput.amount depositData)
           (fields account)) in
      await _ ← Account_save account None;
      await now ← newDate;
      let transaction : Doc Transaction.t :=
        (_id transaction, Transaction.complete now (fields transaction)) in
      await _ ← Transaction_save transaction None;
      ret transaction
  end.

(** Process a deposit transaction. *)
Definition deposit (env : ProcessEnv) (depositData : DepositInput.t)
    : Async (Doc Transaction.t) :=
  try_catch
    (if useTransactions env
     then depositWithTransaction depositData
     else depositWithoutTransaction depositData)
    (λ error,
     await _ ← logger ERROR "Deposit error:";
     throw error).

(** Process a withdrawal transaction. *)
Definition withdraw (withdrawalData : WithdrawalInput.t)
    : Async (Doc Transaction.t) :=
  await session ← startSession;
  await _ ← startTransaction session;
  try_finally
    (try_catch
       (await account ← Account_findOne
            (ByIdAndUser (WithdrawalInput.accountId withdrawalData)
                         (WithdrawalInput.userId withdrawalData))
            (Some session);
        match account with
        | None => throw (Error "Account not found")
        | Some account =>
          if decide (Account.currency (fields account)
                     ≠ WithdrawalInput.currency withdrawalData)
          then throw (Error "Currency mismatch")
          else if decide (Account.availableBalance (fields account)
                          < WithdrawalInput.amount withdrawalData)
          then throw (Error "Insufficient funds")
          else
            await transactionId ← generateTransactionId;
            await id ← newObjectId;
            let transaction : Doc Transaction.t :=
              (id, Transaction.mk transactionId
                     (WithdrawalInput.userId withdrawalData)
                     WITHDRAWAL
                     (WithdrawalInput.amount withdrawalData)
                     (WithdrawalInput.currency withdrawalData)
                     (Some (WithdrawalInput.accountId withdrawalData))
                     None
                     (WithdrawalInput.description withdrawalData)
                     PENDING
                     (default [] (WithdrawalInput.metadata withdrawalData))
                     None) in
            await _ ← Transaction_create transaction (Some session);
            await _ ← createLedgerEntry
                 (_id transaction)
                 (WithdrawalInput.accountId withdrawalData)
                 CREDIT
                 (WithdrawalInput.amount withdrawalData)
                 (WithdrawalInput.currency withdrawalData)
                 (Account.balance (fields account)
                  - WithdrawalInput.amount withdrawalData)
                 ("Withdrawal: " +:+ WithdrawalInput.description withdrawalData)
                 session;
            let account : Doc Account.t :=
              (_id account,
               Account.set_balances
                 (Account.balance (fields account)
                  - WithdrawalInput.amount withdrawalData)
                 (Account.availableBalance (fields account)
                  - WithdrawalInput.amount withdrawalData)
                 (fields account)) in
            await _ ← Account_save account (Some session);
            await now ← newDate;
            let transaction : Doc Transaction.t :=
              (_id transaction, Transaction.complete now (fields transaction)) in
            await _ ← Transaction_save transaction (Some session);
            await _ ← commitTransaction session;
            ret transaction
        end)
       (λ error,
        await _ ← abortTransaction session;
        await _ ← logger ERROR "Withdrawal error:";
        throw error))
    (endSession session).

(** Process a transfer transaction. *)
Definition transfer (transferData : TransferInput.t)
    : Async (Doc Transaction.t) :=
  await session ← startSession;
  await _ ← startTransaction session;
  try_finally
    (try_catch
       (await sourceAccount ← Account_findOne
            (ByIdAndUser (TransferInput.sourceAccountId transferData)
                         (TransferInput.userId transferData))
            (Some session);
        match sourceAccount with
        | None => throw (Error "Source account not found")
        | Some sourceAccount =>
          await destinationAccount ← Account_findOne
               (ById (TransferInput.destinationAccountId transferData))
               (Some session);
          match destinationAccount with
          | None => throw (Error "Destination account not found")
          | Some destinationAccount =>
            if decide (Account.currency (fields sourceAccount)
                       ≠ TransferInput.currency transferData)
            then throw (Error "Source account currency mismatch")
            else if decide (Account.currency (fields destinationAccount)
                            ≠ TransferInput.currency transferData)
            then throw (Error "Destination account currency mismatch")
            else if decide (Account.availableBalance (fields sourceAccount)
                            < TransferInput.amount transferData)
            then throw (Error "Insufficient funds")
            else
              await transactionId ← generateTransactionId;
              await id ← newObjectId;
              let transaction : Doc Transaction.t :=
                (id, Transaction.mk transactionId
                       (TransferInput.userId transferData)
                       TRANSFER
                       (TransferInput.amount transferData)
                       (TransferInput.currency transferData)
                       (Some (TransferInput.sourceAccountId transferData))
                       (Some (TransferInput.destinationAccountId transferData))
                       (TransferInput.description transferData)
                       PENDING
                       (default [] (TransferInput.metadata transferData))
                       None) in
              await _ ← Transaction_create transaction (Some session);
              await _ ← createLedgerEntry
                   (_id transaction)
                   (TransferInput.sourceAccountId transferData)
                   CREDIT
                   (TransferInput.amount transferData)
                   (TransferInput.currency transferData)
                   (Account.balance (fields sourceAccount)
                    - TransferInput.amount transferData)
                   ("Transfer Out: " +:+ TransferInput.description transferData)
                   session;
              await _ ← createLedgerEntry
                   (_id transaction)
                   (TransferInput.destinationAccountId transferData)
                   DEBIT
                   (TransferInput.amount transferData)
                   (TransferInput.currency transferData)
                   (Account.balance (fields destinationAccount)
                    + TransferInput.amount transferData)
                   ("Transfer In: " +:+ TransferInput.description transferData)
                   session;
              let sourceAccount : Doc Account.t :=
                (_id sourceAccount,
                 Account.set_balances
                   (Account.balance (fields sourceAccount)
                    - TransferInput.amount transferData)
                   (Account.availableBalance (fields sourceAccount)
                    - TransferInput.amount transferData)
                   (fields sourceAccount)) in
              await _ ← Account_save sourceAccount (Some session);
              let destinationAccount : Doc Account.t :=
                (_id destinationAccount,
                 Account.set_balances
                   (Account.balance (fields destinationAccount)
                    + TransferInput.amount transferData)
                   (Account.availableBalance (fields destinationAccount)
                    + TransferInput.amount transferData)
                   (fields destinationAccount)) in
              await _ ← Account_save destinationAccount (Some session);
              await now ← newDate;
              let transaction : Doc Transaction.t :=
                (_id transaction, Transaction.complete now (fields transaction)) in
              await _ ← Transaction_save transaction (Some session);
              await _ ← commitTransaction session;
              ret transaction
          end
        end)
       (λ error,
        await _ ← abortTransaction session;
        await _ ← logger ERROR "Transfer error:";
        throw error))
    (endSession session).

(** ** services/accountService.ts *)

Module CreateAccountInput.
Record t := mk {
  userId : ObjectId;
  name : string;
  type : AccountType;
  currency : string;
  initialBalance : option Qc;
  metadata : option Metadata
}.
End CreateAccountInput.

(** [x || 0] on an optional number. *)
Definition orZero (x : option Qc) : Qc := default 0 x.

(** Create a new account.  [None] stands for a run of
    [generateAccountNumber] that does not end within the draws at hand. *)
Definition createAccount (accountData : CreateAccountInput.t) (w : World)
    : option (Completion (Doc Account.t) * World) :=
  let handler : exn → Async (Doc Account.t) :=
    λ error,
      await _ ← logger ERROR "Error creating account:";
      throw error in
  match generateAccountNumber w with
  | None => None
  | Some (Throw e, w') => Some (handler e w')
  | Some (Return accountNumber, w') =>
      Some (try_catch
              (await id ← newObjectId;
               let account : Doc Account.t :=
                 (id, Account.mk
                        (CreateAccountInput.userId accountData)
                        accountNumber
                        (CreateAccountInput.name accountData)
                        (CreateAccountInput.type accountData)
                        (CreateAccountInput.currency accountData)
                        (orZero (CreateAccountInput.initialBalance accountData))
                        (orZero (CreateAccountInput.initialBalance accountData))
                        ACTIVE
                        (default [] (CreateAccountInput.metadata accountData))) in
               await _ ← Account_create account None;
               ret account)
              handler w')
  end.

(** Close account with transaction support. *)
Definition closeAccountWithTransaction (accountId userId : ObjectId)
    : Async (Doc Account.t) :=
  await session ← startSession;
  await _ ← startTransaction session;
  try_finally
    (try_catch
       (await account ← Account_findOne (ByIdAndUser accountId userId)
                                        (Some session);
        match account with
        | None => throw (Error "Account not found")
        | Some account =>
          if decide (Account.balance (fields account) ≠ 0)
          then throw (Error "Account must have zero balance to be closed")
          else
            let account : Doc Account.t :=
              (_id account, Account.set_status CLOSED (fields account)) in
            await _ ← Account_save account (Some session);
            await _ ← commitTransaction session;
            ret account
        end)
       (λ error,
        await _ ← abortTransaction session;
        throw error))
    (endSession session).

(** Close account without transaction support (fallback). *)
Definition closeAccountWithoutTransaction (accountId userId : ObjectId)
    : Async (Doc Account.t) :=
  await account ← Account_findOne (ByIdAndUser accountId userId) None;
  match account with
  | None => throw (Error "Account not found")
  | Some account =>
    if decide (Account.balance (fields account) ≠ 0)
    then throw (Error "Account must have zero balance to be closed")
    else
      let account : Doc Account.t :=
        (_id account, Account.set_status CLOSED (fields account)) in
      await _ ← Account_save account None;
      ret account
  end.

(** Close account. *)
Definition closeAccount (env : ProcessEnv) (accountId userId : ObjectId)
    : Async (Doc Account.t) :=
  try_catch
    (if useTransactions env
     then closeAccountWithTransaction accountId userId
     else closeAccountWithoutTransaction accountId userId)
    (λ error,
     await _ ← logger ERROR "Error closing account:";
     throw error).

(** ** More of the driver: lookups, counted pages and updates in place *)

Definition matchTransaction (id userId : ObjectId) (c : Collections)
    : option (Doc Transaction.t) :=
  match transactions c !! id with
  | Some t =>
      if decide (Transaction.userId t = userId) then Some (id, t) else None
  | None => None
  end.

(** [Transaction.findOne({ _id, userId })] *)
Definition Transaction_findOne (id userId : ObjectId)
    (session : option ClientSession) : Async (option (Doc Transaction.t)) :=
  await _ ← storeCall;
  λ w, (Return (matchTransaction id userId (view session w)), w).

(** [findOneAndUpdate(filter, update, { new: true, session })]: one round
    trip that applies the update to the document found and answers the
    updated document, or answers null when nothing matches. *)
Definition Account_findOneAndUpdate (q : AccountQuery)
    (update : Account.t → Account.t) (session : option ClientSession)
    : Async (option (Doc Account.t)) :=
  await _ ← storeCall;
  λ w, match matchAccount q (view session w) with
       | Some d =>
           (Return (Some (_id d, update (fields d))),
            write session (set_accounts <[_id d := update (fields d)]>) w)
       | None => (Return None, w)
       end.

(** The entries of one account, newest first.  Entries get their
    [createdAt] when they are inserted, so sorting on it in descending order
    is reading the log backwards. *)
Definition entriesOf (accountId : ObjectId) (c : Collections)
    : list LedgerEntry.t :=
  reverse (filter (λ e, LedgerEntry.accountId e = accountId)
                  (ledgerEntries c)).

(** [LedgerEntry.countDocuments({ accountId })] *)
Definition LedgerEntry_countDocuments (accountId : ObjectId) : Async N :=
  await _ ← storeCall;
  λ w, (Return (N.of_nat (length (entriesOf accountId (durable w)))), w).

(** [LedgerEntry.find({ accountId }).sort({ createdAt: -1 }).skip(s).limit(l)]:
    the server refuses a negative skip, and a limit of 0 is no limit. *)
Definition LedgerEntry_find (accountId : ObjectId) (skip : Z) (limit : N)
    : Async (list LedgerEntry.t) :=
  await _ ← storeCall;
  if (skip <? 0)%Z then throw MongoError
  else
    λ w, let rest := drop (Z.to_nat skip) (entriesOf accountId (durable w)) in
         (Return (if (limit =? 0)%N then rest else take (N.to_nat limit) rest),
          w).

(** The value of [Math.ceil(total / limit)] for two natural numbers: the
    quotient by 0 is [NaN] for 0 and [Infinity] otherwise. *)
Inductive JsNumber := Finite (n : N) | Infinity | NaN.

Definition ceilDiv (total limit : N) : JsNumber :=
  match limit with
  | N0 => if (total =? 0)%N then NaN else Infinity
  | Npos l => Finite (Z.to_N (Qceiling (Z.of_N total # l)))
  end.

(** [n < x] and [n > 1] on numbers. *)
Definition jsLess (n : N) (x : JsNumber) : bool :=
  match x with
  | Finite m => (n <? m)%N
  | Infinity => true
  | NaN => false
  end.

(** ** utils/helpers.ts, continued *)

Module Pagination.
Record t := mk {
  page : N;
  limit : N;
  total : N;
  totalPages : JsNumber;
  hasNextPage : bool;
  hasPrevPage : bool
}.
End Pagination.

(** Calculate pagination metadata. *)
Definition getPaginationMetadata (page limit total : N) : Pagination.t :=
  let totalPages := ceilDiv total limit in
  let hasNextPage := jsLess page totalPages in
  let hasPrevPage := (1 <? page)%N in
  Pagination.mk page limit total totalPages hasNextPage hasPrevPage.

(** ** services/transactionService.ts, continued *)

(** Get transaction by ID. *)
Definition getTransactionById (transactionId userId : ObjectId)
    : Async (option (Doc Transaction.t)) :=
  try_catch
    (Transaction_findOne transactionId userId None)
    (λ error,
     await _ ← logger ERROR "Get transaction error:";
     throw error).

Module LedgerPage.
Record t := mk {
  entries : list LedgerEntry.t;
  total : N;
  page : N;
  limit : N;
  totalPages : JsNumber
}.
End LedgerPage.

(** Get ledger entries for an account ([page] defaults to 1, [limit] to 20). *)
Definition getLedgerEntries (accountId : ObjectId) (page limit : option N)
    : Async LedgerPage.t :=
  let page := default 1%N page in
  let limit := default 20%N limit in
  try_catch
    (await total ← LedgerEntry_countDocuments accountId;
     await entries ← LedgerEntry_find accountId
          ((Z.of_N page - 1) * Z.of_N limit)%Z limit;
     let totalPages := ceilDiv total limit in
     ret (LedgerPage.mk entries total page limit totalPages))
    (λ error,
     await _ ← logger ERROR "Get ledger entries error:";
     throw error).

(** ** services/accountService.ts, continued *)

Module UpdateAccountInput.
Record t := mk {
  name : option string;
  status : option AccountStatus;
  metadata : option Metadata
}.
End UpdateAccountInput.

(** [{ $set: updateData }]: the paths present in the update replace those of
    the document. *)
Definition setPaths (updateData : UpdateAccountInput.t) (a : Account.t)
    : Account.t :=
  Account.mk (Account.userId a) (Account.accountNumber a)
    (default (Account.name a) (UpdateAccountInput.name updateData))
    (Account.type a) (Account.currency a)
    (Account.balance a) (Account.availableBalance a)
    (default (Account.status a) (UpdateAccountInput.status updateData))
    (default (Account.metadata a) (UpdateAccountInput.metadata updateData)).

(** [{ $inc: { balance: amount, availableBalance: amount } }] *)
Definition incBalances (amount : Qc) (a : Account.t) : Account.t :=
  Account.set_balances (Account.balance a + amount)
                       (Account.availableBalance a + amount) a.

(** Get account by ID. *)
Definition getAccountById (accountId userId : ObjectId)
    : Async (option (Doc Account.t)) :=
  try_catch
    (Account_findOne (ByIdAndUser accountId userId) None)
    (λ error,
     await _ ← logger ERROR "Error fetching account:";
     throw error).

(** Get account by account number. *)
Definition getAccountByNumber (accountNumber : N)
    : Async (option (Doc Account.t)) :=
  try_catch
    (Account_findOne (ByAccountNumber accountNumber) None)
    (λ error,
     await _ ← logger ERROR "Error fetching account by number:";
     throw error).

(** Update account details. *)
Definition updateAccount (accountId userId : ObjectId)
    (updateData : UpdateAccountInput.t) : Async (option (Doc Account.t)) :=
  try_catch
    (await account ← Account_findOneAndUpdate
          (ByIdAndUser accountId userId) (setPaths updateData) None;
     ret account)
    (λ error,
     await _ ← logger ERROR "Error updating account:";
     throw error).

(** Update account balance (internal use only). *)
Definition updateAccountBalance (accountId : ObjectId) (amount : Qc)
    (session : option ClientSession) : Async (option (Doc Account.t)) :=
  try_catch
    (await account ← Account_findOneAndUpdate
          (ById accountId) (incBalances amount) session;
     ret account)
    (λ error,
     await _ ← logger ERROR "Error updating account balance:";
     throw error).

(** ** middleware/errorHandler.ts *)

Module AppError.
Record t := mk {
  statusCode : option Z;
  message : string;
  isOperational : option bool
}.
End AppError.

Module Response.
Record t := mk {
  code : Z;             (* [res.status(code)] *)
  status : string;      (* the two fields of the JSON body *)
  message : string
}.
End Response.

(** Handle known operational errors. *)
Definition errorHandler (env : ProcessEnv) (err : AppError.t)
    : Async Response.t :=
  (* err.statusCode || 500, err.message || "Internal Server Error" *)
  let statusCode :=
    match AppError.statusCode err with
    | Some c => if (c =? 0)%Z then 500%Z else c
    | None => 500%Z
    end in
  let message :=
    if String.eqb (AppError.message err) "" then "Internal Server Error"
    else AppError.message err in
  await _ ← (if (statusCode =? 500)%Z
             then logger ERROR "Server Error:"
             else logger WARN "Operational Error:");
  if bool_decide (NODE_ENV_var env = Some "production")
     && negb (default false (AppError.isOperational err))
  then ret (Response.mk 500 "error" "Something went wrong")
  else ret (Response.mk statusCode
              (if (500 <=? statusCode)%Z then "error" else "fail")
              message).

(** ** Vocabulary of the statements *)

(** An account after its two balances moved up, or down, by [x]. *)
Definition raise (x : Qc) (a : Account.t) : Account.t :=
  Account.set_balances (Account.balance a + x)
                       (Account.availableBalance a + x) a.
Definition lower (x : Qc) (a : Account.t) : Account.t :=
  Account.set_balances (Account.balance a - x)
                       (Account.availableBalance a - x) a.

(** What the schemas of Transaction and LedgerEntry ask of a request: an
    amount of at least 0.01 and non-empty description and currency. *)
Definition acceptable (amount : Qc) (currency description : string) : Prop :=
  Q2Qc (1 # 100) ≤ amount ∧ description ≠ "" ∧ currency ≠ "".

(** Reconciliation: a debit counts positive, a credit negative. *)
Definition signedAmount (e : LedgerEntry.t) : Qc :=
  match LedgerEntry.type e with
  | DEBIT => LedgerEntry.amount e
  | CREDIT => - LedgerEntry.amount e
  end.

Fixpoint ledgerSum (accountId : ObjectId) (entries : list LedgerEntry.t) : Qc :=
  match entries with
  | [] => 0
  | e :: rest =>
      (if decide (LedgerEntry.accountId e = accountId)
       then signedAmount e else 0) + ledgerSum accountId rest
  end.

(** The stores reached from the empty one by account creation and by
    successful deposits, withdrawals and transfers. *)
Inductive history : Collections → Prop :=
  | history_empty : history noCollections
  | history_createAccount w accountData account w' :
      history (durable w) →
      createAccount accountData w = Some (Return account, w') →
      history (durable w')
  | history_deposit env w depositData transaction w' :
      history (durable w) →
      deposit env depositData w = (Return transaction, w') →
      history (durable w')
  | history_withdraw w withdrawalData transaction w' :
      history (durable w) →
      withdraw withdrawalData w = (Return transaction, w') →
      history (durable w')
  | history_transfer w transferData transaction w' :
      history (durable w) →
      transfer transferData w = (Return transaction, w') →
      history (durable w').



(** Rewriting the status of every account, in the committed collections and
    in the copy of an open transaction. *)
Definition restatusAccount (f : AccountStatus → AccountStatus)
    (a : Account.t) : Account.t :=
  Account.set_status (f (Account.status a)) a.

Definition restatus (f : AccountStatus → AccountStatus)
    (c : Collections) : Collections :=
  mkCollections (restatusAccount f <$> accounts c) (transactions c)
                (ledgerEntries c).

Definition restatusWorld (f : AccountStatus → AccountStatus)
    (w : World) : World :=
  mkWorld (restatus f (durable w)) (restatus f <$> txn w)
          (faults w) (random w) (clock w) (log w).




(** Write scopes.  [harmless m]: [m] leaves the committed collections alone
    whenever it runs.  [confined m]: inside an open transaction [m] works on
    the private copy only and leaves the transaction open.  [atomic m]:
    inside an open transaction, when [m] throws nothing was committed. *)
Definition harmless {A} (m : Async A) : Prop :=
  ∀ w r w', m w = (r, w') → durable w' = durable w.

Definition confined {A} (m : Async A) : Prop :=
  ∀ w r w', is_Some (txn w) → m w = (r, w') →
    durable w' = durable w ∧ is_Some (txn w').

Definition atomic {A} (m : Async A) : Prop :=
  ∀ w e w', is_Some (txn w) → m w = (Throw e, w') → durable w' = durable w.

(** ** Invariants and relations between stores *)

(** The stores in which no two accounts share an account number. *)
Definition uniqueNumbers (c : Collections) : Prop :=
  ∀ i j a b, accounts c !! i = Some a → accounts c !! j = Some b →
             Account.accountNumber a = Account.accountNumber b → i = j.

(** The stores in which the two balances of every account agree. *)
Definition inLockstep (c : Collections) : Prop :=
  ∀ i a, accounts c !! i = Some a →
         Account.availableBalance a = Account.balance a.


(** [m] keeps [P], a property of stores, true of the committed collections
    and of the copy of an open transaction. *)
Definition keeps (P : Collections → Prop) {A} (m : Async A) : Prop :=
  ∀ w r w', P (durable w) → (∀ c, txn w = Some c → P c) → m w = (r, w') →
    P (durable w') ∧ (∀ c, txn w' = Some c → P c).

(** What every transaction record written by the services looks like. *)
Definition wellFormed (t : Transaction.t) : Prop :=
  (Transaction.status t = PENDING ∧ Transaction.completedAt t = None
   ∨ Transaction.status t = COMPLETED ∧ is_Some (Transaction.completedAt t))
  ∧ (Transaction.type t = DEPOSIT ∨ Transaction.type t = WITHDRAWAL
     ∨ Transaction.type t = TRANSFER)
  ∧ Q2Qc (1 # 100) ≤ Transaction.amount t.

Definition wellFormedTransactions (c : Collections) : Prop :=
  ∀ i t, transactions c !! i = Some t → wellFormed t.

Definition movement (t : Transaction.t) : Prop :=
  Transaction.type t = DEPOSIT ∨ Transaction.type t = WITHDRAWAL
  ∨ Transaction.type t = TRANSFER.


(** [a'] is [a] with other balances, both moved by the same amount. *)
Definition sameButBalances (a a' : Account.t) : Prop :=
  a' = Account.set_balances (Account.balance a')
                            (Account.availableBalance a') a ∧
  Account.balance a' - Account.balance a
  = Account.availableBalance a' - Account.availableBalance a.

(** From [c] to [c'] no account appeared or disappeared, and nothing but
    balances changed. *)
Definition onlyBalancesMoved (c c' : Collections) : Prop :=
  ∀ i, match accounts c !! i, accounts c' !! i with
       | Some a, Some a' => sameButBalances a a'
       | None, None => True
       | _, _ => False
       end.
(** [m] reads: it leaves the committed collections and the copy of an open
    transaction as they are. *)
Definition readOnly {A} (m : Async A) : Prop :=
  ∀ w r w', m w = (r, w') → durable w' = durable w ∧ txn w' = txn w.

(** ** Concrete data for the examples *)

Definition production : ProcessEnv := mkEnv (Some "production") None.
Definition development : ProcessEnv := mkEnv None None.

Definition alice : ObjectId := 7%N.
Definition bob : ObjectId := 8%N.

Definition usd (userId : ObjectId) (accountNumber : N) (balance : Qc)
    (status : AccountStatus) : Account.t :=
  Account.mk userId accountNumber "Main" ASSET "USD" balance balance status [].

(** Alice owns account 1 (USD, 1000), Bob owns account 2 (USD, 0). *)
Definition twoAccounts : Collections :=
  mkCollections
    (<[1%N := usd alice 1000000001 (Q2Qc 1000) ACTIVE]>
       (<[2%N := usd bob 1000000002 0 ACTIVE]> ∅))
    ∅ [].

Definition quiet (c : Collections) : World := mkWorld c None [] [] 0%N [].
Definition failing (fs : list bool) (c : Collections) : World :=
  mkWorld c None fs [] 0%N [].

(** Requests of Alice on her account, and a run of store calls in which
    three go well before the fourth one throws (in a deposit or a withdrawal
    that is the insertion of the ledger entry). *)
Definition depositOf (amount : Qc) : DepositInput.t :=
  DepositInput.mk alice 1 amount "USD" "salary" None.
Definition withdrawalOf (amount : Qc) : WithdrawalInput.t :=
  WithdrawalInput.mk alice 1 amount "USD" "cash" None.
Definition transferOf (amount : Qc) : TransferInput.t :=
  TransferInput.mk alice 1 2 amount "USD" "rent" None.
Definition ledgerInsertFails : list bool := [false; false; false; true].

(** Alice opens an account with 1000 on an empty store (the one draw gives
    the account number), then deposits 500 on it. *)
Definition openWith1000 : CreateAccountInput.t :=
  CreateAccountInput.mk alice "Main" ASSET "USD" (Some (Q2Qc 1000)) None.
Definition emptyStore : World := mkWorld noCollections None [] [5%N] 0%N [].
Definition opened : Doc Account.t :=
  (0%N, Account.mk alice 1000000005 "Main" ASSET "USD" (Q2Qc 1000) (Q2Qc 1000)
          ACTIVE []).
Definition afterOpening : Collections :=
  mkCollections (<[0%N := fields opened]> ∅) ∅ [].

(** Alice opens an account with nothing, deposits 1000 on it, then asks for
    a transfer of 500 from that account to itself. *)
Definition openWithNothing : CreateAccountInput.t :=
  CreateAccountInput.mk alice "Main" ASSET "USD" None None.
Definition afterOpeningEmpty : World :=
  quiet (mkCollections
           (<[0%N := Account.mk alice 1000000005 "Main" ASSET "USD" 0 0
                       ACTIVE []]> ∅) ∅ []).
Definition deposit1000 : DepositInput.t :=
  DepositInput.mk alice 0 (Q2Qc 1000) "USD" "salary" None.
Definition afterDeposit1000 : World :=
  quiet (durable (snd (deposit production deposit1000 afterOpeningEmpty))).
Definition transferToSelfOnOpened : TransferInput.t :=
  TransferInput.mk alice 0 0 (Q2Qc 500) "USD" "loop" None.

(** Alice holds half a cent, and asks for all of it. *)
Definition halfCent : Collections :=
  mkCollections (<[1%N := usd alice 1000000001 (Q2Qc (1 # 200)) ACTIVE]> ∅)
                ∅ [].


(** * Write scopes: what a failure inside a session leaves behind *)

Section write_scope.
Context {A : Type}.
Implicit Types m : Async A.

Lemma confined_atomic m : confined m → atomic m.
Proof. intros Hm w e w' Ht H. by destruct (Hm _ _ _ Ht H). Qed.

Lemma harmless_ret (a : A) : harmless (ret a).
Proof. by intros w r w' [= <- <-]. Qed.

Lemma harmless_throw e : harmless (@throw A e).
Proof. by intros w r w' [= <- <-]. Qed.

Lemma confined_ret (a : A) : confined (ret a).
Proof. by intros w r w' Ht [= <- <-]. Qed.

Lemma confined_throw e : confined (@throw A e).
Proof. by intros w r w' Ht [= <- <-]. Qed.
End write_scope.


Lemma harmless_bind {A B} (m : Async A) (k : A → Async B) :
  harmless m → (∀ a, harmless (k a)) → harmless (bind m k).
Proof.
  intros Hm Hk w r w' H. unfold bind in H.
  destruct (m w) as [[a|e] w1] eqn:E.
  - rewrite (Hk _ _ _ _ H). eauto.
  - injection H as <- <-. eauto.
Qed.

Lemma confined_bind {A B} (m : Async A) (k : A → Async B) :
  confined m → (∀ a, confined (k a)) → confined (bind m k).
Proof.
  intros Hm Hk w r w' Ht H. unfold bind in H.
  destruct (m w) as [[a|e] w1] eqn:E; destruct (Hm _ _ _ Ht E) as [Hd Ht1].
  - destruct (Hk _ _ _ _ Ht1 H) as [Hd' ?]. split; [congruence|done].
  - by injection H as <- <-.
Qed.

Lemma atomic_bind {A B} (m : Async A) (k : A → Async B) :
  confined m → (∀ a, atomic (k a)) → atomic (bind m k).
Proof.
  intros Hm Hk w e w' Ht H. unfold bind in H.
  destruct (m w) as [[a|e1] w1] eqn:E; destruct (Hm _ _ _ Ht E) as [Hd Ht1].
  - rewrite (Hk _ _ _ _ Ht1 H). done.
  - by injection H as <- <-.
Qed.

Lemma harmless_storeCall : harmless storeCall.
Proof.
  intros w r w' H. unfold storeCall in H.
  destruct (faults w) as [|[] fs]; by injection H as <- <-.
Qed.

Lemma confined_storeCall : confined storeCall.
Proof.
  intros w r w' Ht H. unfold storeCall in H.
  destruct (faults w) as [|[] fs]; by injection H as <- <-.
Qed.

Lemma harmless_logger l s : harmless (logger l s).
Proof. by intros w r w' [= <- <-]. Qed.

Lemma confined_logger l s : confined (logger l s).
Proof. by intros w r w' Ht [= <- <-]. Qed.

Lemma confined_newObjectId : confined newObjectId.
Proof. by intros w r w' Ht [= <- <-]. Qed.

Lemma confined_newDate : confined newDate.
Proof. by intros w r w' Ht [= <- <-]. Qed.

Lemma confined_generateTransactionId : confined generateTransactionId.
Proof.
  intros w r w' Ht H. unfold generateTransactionId, draw in H.
  destruct (random w); by injection H as <- <-.
Qed.

Lemma confined_read {A} (f : World → A) :
  confined (λ w, (Return (f w), w)).
Proof. by intros w r w' Ht [= <- <-]. Qed.

Lemma confined_write s f :
  confined (λ w, (Return tt, write (Some s) f w)).
Proof.
  intros w r w' [c Ht] [= <- <-]. unfold write. rewrite Ht. by simpl.
Qed.

Lemma confined_Account_findOne q s : confined (Account_findOne q s).
Proof.
  apply confined_bind; [apply confined_storeCall|intros _].
  apply (confined_read (λ w, matchAccount q (view s w))).
Qed.

Lemma confined_Account_save d s : confined (Account_save d (Some s)).
Proof.
  apply confined_bind; [apply confined_storeCall|intros _].
  apply confined_write.
Qed.

Lemma confined_Transaction_save d s : confined (Transaction_save d (Some s)).
Proof.
  apply confined_bind; [apply confined_storeCall|intros _].
  apply confined_write.
Qed.

Lemma confined_Transaction_create d s : confined (Transaction_create d (Some s)).
Proof.
  unfold Transaction_create. destruct (Transaction.validate _).
  - apply confined_bind; [apply confined_storeCall|intros _].
    apply confined_write.
  - apply confined_throw.
Qed.

Lemma confined_createLedgerEntry i a ty am cu b de s :
  confined (createLedgerEntry i a ty am cu b de s).
Proof.
  unfold createLedgerEntry, LedgerEntry_create.
  apply confined_bind; [|intros _; apply confined_ret].
  destruct (LedgerEntry.validate _).
  - apply confined_bind; [apply confined_storeCall|intros _].
    apply confined_write.
  - apply confined_throw.
Qed.

(** Committing is the one step that publishes; when it throws it has not. *)
Lemma atomic_commit {A} s (a : A) :
  atomic (await _ ← commitTransaction s; ret a).
Proof.
  intros w e w' Ht H.
  unfold commitTransaction, bind, ret, storeCall in H.
  destruct (faults w) as [|[] fs]; simpl in H;
    try destruct (txn w); by simplify_eq.
Qed.

Lemma harmless_abortTransaction s : harmless (abortTransaction s).
Proof.
  apply harmless_bind; [by intros w r w' [= <- <-]|intros _].
  apply harmless_storeCall.
Qed.

Lemma harmless_endSession s : harmless (endSession s).
Proof. by intros w r w' [= <- <-]. Qed.

(** The shape shared by every operation that opens a session: start it, run
    the body, abort in the handler, end the session at last. *)
Lemma session_scope_atomic {A} (body : ClientSession → Async A)
    (handler : ClientSession → exn → Async A) w e w' :
  (∀ s, atomic (body s)) →
  (∀ s e, harmless (handler s e)) →
  (await session ← startSession;
   await _ ← startTransaction session;
   try_finally (try_catch (body session) (handler session))
               (endSession session)) w = (Throw e, w') →
  durable w' = durable w.
Proof.
  intros Hbody Hhandler H.
  unfold bind at 1 in H. unfold startSession, bind at 1 in H.
  destruct (storeCall w) as [[[]|e0] w0] eqn:E0;
    pose proof (harmless_storeCall _ _ _ E0) as Hd0.
  2: { injection H as <- <-. done. }
  unfold ret, bind, startTransaction, try_finally, endSession in H.
  destruct (try_catch _ _ _) as [r w2] eqn:E2.
  injection H as -> <-. simpl. rewrite <-Hd0.
  unfold try_catch in E2.
  destruct (body Session _) as [[a|e1] w1] eqn:E1; [done|].
  rewrite (Hhandler _ _ _ _ _ E2).
  by rewrite (Hbody _ (set_txn (Some (durable w0)) w0) _ _
                (mk_is_Some _ _ eq_refl) E1).
Qed.

(** The scope of a service body, one construct at a time. *)
Ltac scope_step :=
  lazymatch goal with
  | |- atomic (match ?x with Some _ => _ | None => _ end) => destruct x
  | |- atomic (if ?b then _ else _) => destruct b
  | |- atomic (bind (commitTransaction _) (λ _, ret _)) => apply atomic_commit
  | |- atomic (bind _ _) => apply atomic_bind; [|intros ?]
  | |- atomic (throw _) => apply confined_atomic, confined_throw
  | |- confined (Account_findOne _ _) => apply confined_Account_findOne
  | |- confined (Account_save _ _) => apply confined_Account_save
  | |- confined (Transaction_save _ _) => apply confined_Transaction_save
  | |- confined (Transaction_create _ _) => apply confined_Transaction_create
  | |- confined (createLedgerEntry _ _ _ _ _ _ _ _) =>
      apply confined_createLedgerEntry
  | |- confined generateTransactionId => apply confined_generateTransactionId
  | |- confined newObjectId => apply confined_newObjectId
  | |- confined newDate => apply confined_newDate
  | |- harmless (bind _ _) => apply harmless_bind; [|intros ?]
  | |- harmless (abortTransaction _) => apply harmless_abortTransaction
  | |- harmless (logger _ _) => apply harmless_logger
  | |- harmless (throw _) => apply harmless_throw
  end.

Lemma depositWithTransaction_atomic d w e w' :
  depositWithTransaction d w = (Throw e, w') → durable w' = durable w.
Proof.
  unfold depositWithTransaction.
  apply (session_scope_atomic _ (λ session error, _)).
  - intros s. repeat scope_step.
  - intros s e0. repeat scope_step.
Qed.

Lemma withdraw_atomic d w e w' :
  withdraw d w = (Throw e, w') → durable w' = durable w.
Proof.
  unfold withdraw.
  apply (session_scope_atomic _ (λ session error, _)).
  - intros s. repeat scope_step.
  - intros s e0. repeat scope_step.
Qed.

Lemma transfer_atomic d w e w' :
  transfer d w = (Throw e, w') → durable w' = durable w.
Proof.
  unfold transfer.
  apply (session_scope_atomic _ (λ session error, _)).
  - intros s. repeat scope_step.
  - intros s e0. repeat scope_step.
Qed.

Lemma closeAccountWithTransaction_atomic i u w e w' :
  closeAccountWithTransaction i u w = (Throw e, w') → durable w' = durable w.
Proof.
  unfold closeAccountWithTransaction.
  apply (session_scope_atomic _ (λ session error, _)).
  - intros s. repeat scope_step.
  - intros s e0. repeat scope_step.
Qed.

(** * Running the services: what a successful call has done *)

(** Unfold the monad and the driver in [H], keeping maps and numbers folded. *)
Ltac exec_in H :=
  cbv beta iota zeta delta
    [bind ret throw try_catch try_finally storeCall startSession
     startTransaction commitTransaction abortTransaction endSession
     newObjectId newDate draw logger generateTransactionId
     Account_findOne Account_create Account_save Transaction_create
     Transaction_save LedgerEntry_create createLedgerEntry
     createLedgerEntryWithoutTransaction view write
     set_durable set_txn set_faults set_random set_clock set_log
     set_accounts set_transactions set_ledgerEntries
     accounts transactions ledgerEntries
     durable txn faults random clock log _id fields fst snd] in H.

(** One more case split of the run in [H]: on the next fault, the next draw,
    the account found, a comparison or a validator. *)
Ltac step_in H :=
  match type of H with
  | context [match ?fs with [] => _ | _ :: _ => _ end] =>
      is_var fs; destruct fs as [|[] ?]
  | context [match matchAccount ?q ?c with _ => _ end] =>
      let E := fresh "Hfind" in destruct (matchAccount q c) as [[? ?]|] eqn:E
  | context [if decide ?P then _ else _] => destruct (decide P)
  | context [if ?b then _ else _] => let E := fresh "Hvalid" in destruct b eqn:E
  end; exec_in H; try discriminate H.

Lemma matchAccount_ByIdAndUser c i u n a :
  matchAccount (ByIdAndUser i u) c = Some (n, a) →
  n = i ∧ accounts c !! i = Some a ∧ Account.userId a = u.
Proof.
  unfold matchAccount. destruct (accounts c !! i) as [a'|]; [|done].
  destruct (decide _); [|done]. by intros [= <- <-].
Qed.

Lemma matchAccount_ById c i n a :
  matchAccount (ById i) c = Some (n, a) → n = i ∧ accounts c !! i = Some a.
Proof.
  unfold matchAccount. destruct (accounts c !! i) as [a'|]; [|done].
  by intros [= <- <-].
Qed.

Lemma fresh_unused (Y : gset N) acc txs led :
  (fresh (usedIds (mkCollections acc txs led) ∪ Y) ∉ dom acc) ∧
  fresh (usedIds (mkCollections acc txs led) ∪ Y) ∉ dom txs.
Proof.
  pose proof (is_fresh (usedIds (mkCollections acc txs led) ∪ Y)) as H.
  unfold usedIds in *. simpl in *.
  rewrite !not_elem_of_union in H. tauto.
Qed.

(** Read the facts left by a run that returned. *)
Ltac finish_inv :=
  simpl;
  repeat match goal with
  | H : matchAccount (ByIdAndUser _ _) _ = Some _ |- _ =>
      destruct (matchAccount_ByIdAndUser _ _ _ _ _ H) as (? & ? & ?);
      clear H; subst
  | H : matchAccount (ById _) _ = Some _ |- _ =>
      destruct (matchAccount_ById _ _ _ _ H) as (? & ?); clear H; subst
  | H : ¬ (_ ≠ _) |- _ => apply dec_stable in H
  end;
  simpl in *;
  rewrite ?insert_insert_eq.

Lemma deposit_Return_inv env d w t w' :
  deposit env d w = (Return t, w') →
  ∃ a tid at_,
    accounts (durable w) !! DepositInput.accountId d = Some a ∧
    Account.userId a = DepositInput.userId d ∧
    Account.currency a = DepositInput.currency d ∧
    (_id t ∉ dom (transactions (durable w))) ∧
    fields t = Transaction.mk tid (DepositInput.userId d) DEPOSIT
                 (DepositInput.amount d) (DepositInput.currency d)
                 None (Some (DepositInput.accountId d))
                 (DepositInput.description d) COMPLETED
                 (default [] (DepositInput.metadata d)) (Some at_) ∧
    durable w' =
      mkCollections
        (<[DepositInput.accountId d := raise (DepositInput.amount d) a]>
           (accounts (durable w)))
        (<[_id t := fields t]> (transactions (durable w)))
        (ledgerEntries (durable w) ++
         [LedgerEntry.mk (_id t) (DepositInput.accountId d) DEBIT
            (DepositInput.amount d) (DepositInput.currency d)
            (Account.balance a + DepositInput.amount d)
            ("Deposit: " +:+ DepositInput.description d)]).
Proof.
  intros H. destruct w as [[acc txs led] tx fs rs ck lg].
  unfold deposit, depositWithTransaction, depositWithoutTransaction in H.
  destruct (useTransactions env); exec_in H; repeat step_in H;
    injection H as <- <-; finish_inv;
    (eexists _, _, _; split_and!; [done..| |reflexivity|reflexivity]).
  all: apply (fresh_unused _ acc txs led).
Qed.

Lemma withdraw_Return_inv d w t w' :
  withdraw d w = (Return t, w') →
  ∃ a tid at_,
    accounts (durable w) !! WithdrawalInput.accountId d = Some a ∧
    Account.userId a = WithdrawalInput.userId d ∧
    Account.currency a = WithdrawalInput.currency d ∧
    ¬ (Account.availableBalance a < WithdrawalInput.amount d) ∧
    (_id t ∉ dom (transactions (durable w))) ∧
    fields t = Transaction.mk tid (WithdrawalInput.userId d) WITHDRAWAL
                 (WithdrawalInput.amount d) (WithdrawalInput.currency d)
                 (Some (WithdrawalInput.accountId d)) None
                 (WithdrawalInput.description d) COMPLETED
                 (default [] (WithdrawalInput.metadata d)) (Some at_) ∧
    durable w' =
      mkCollections
        (<[WithdrawalInput.accountId d := lower (WithdrawalInput.amount d) a]>
           (accounts (durable w)))
        (<[_id t := fields t]> (transactions (durable w)))
        (ledgerEntries (durable w) ++
         [LedgerEntry.mk (_id t) (WithdrawalInput.accountId d) CREDIT
            (WithdrawalInput.amount d) (WithdrawalInput.currency d)
            (Account.balance a - WithdrawalInput.amount d)
            ("Withdrawal: " +:+ WithdrawalInput.description d)]).
Proof.
  intros H. destruct w as [[acc txs led] tx fs rs ck lg].
  unfold withdraw in H.
  exec_in H; repeat step_in H;
    injection H as <- <-; finish_inv;
    (eexists _, _, _; split_and!; [done..| |reflexivity|reflexivity]).
  all: apply (fresh_unused _ acc txs led).
Qed.

Lemma transfer_Return_inv d w t w' :
  transfer d w = (Return t, w') →
  ∃ src dst tid at_,
    accounts (durable w) !! TransferInput.sourceAccountId d = Some src ∧
    Account.userId src = TransferInput.userId d ∧
    accounts (durable w) !! TransferInput.destinationAccountId d = Some dst ∧
    Account.currency src = TransferInput.currency d ∧
    Account.currency dst = TransferInput.currency d ∧
    ¬ (Account.availableBalance src < TransferInput.amount d) ∧
    (_id t ∉ dom (transactions (durable w))) ∧
    fields t = Transaction.mk tid (TransferInput.userId d) TRANSFER
                 (TransferInput.amount d) (TransferInput.currency d)
                 (Some (TransferInput.sourceAccountId d))
                 (Some (TransferInput.destinationAccountId d))
                 (TransferInput.description d) COMPLETED
                 (default [] (TransferInput.metadata d)) (Some at_) ∧
    durable w' =
      mkCollections
        (<[TransferInput.destinationAccountId d :=
             raise (TransferInput.amount d) dst]>
           (<[TransferInput.sourceAccountId d :=
                lower (TransferInput.amount d) src]>
              (accounts (durable w))))
        (<[_id t := fields t]> (transactions (durable w)))
        (ledgerEntries (durable w) ++
         [LedgerEntry.mk (_id t) (TransferInput.sourceAccountId d) CREDIT
            (TransferInput.amount d) (TransferInput.currency d)
            (Account.balance src - TransferInput.amount d)
            ("Transfer Out: " +:+ TransferInput.description d);
          LedgerEntry.mk (_id t) (TransferInput.destinationAccountId d) DEBIT
            (TransferInput.amount d) (TransferInput.currency d)
            (Account.balance dst + TransferInput.amount d)
            ("Transfer In: " +:+ TransferInput.description d)]).
Proof.
  intros H. destruct w as [[acc txs led] tx fs rs ck lg].
  unfold transfer in H.
  exec_in H; repeat step_in H;
    injection H as <- <-; finish_inv;
    (eexists _, _, _, _; split_and!; [done..| |reflexivity|]).
  all: try apply (fresh_unused _ acc txs led).
  all: by rewrite <-app_assoc.
Qed.

(** * C1: a failed operation in strict mode leaves no trace *)

Lemma deposit_strict_atomic env d w e w' :
  useTransactions env = true →
  deposit env d w = (Throw e, w') → durable w' = durable w.
Proof.
  intros Henv H. unfold deposit, try_catch in H. rewrite Henv in H.
  destruct (depositWithTransaction d w) as [[t|e1] w1] eqn:E; [done|].
  apply depositWithTransaction_atomic in E as <-.
  revert H. apply harmless_bind; [apply harmless_logger|intros _].
  apply harmless_throw.
Qed.

(** C1. Under the strict strategy a deposit, a withdrawal or a transfer that
    throws, for whatever reason and at whatever step (account not found,
    currency mismatch, insufficient funds, a validation error or a failure
    of the store), leaves the committed collections exactly as they were:
    no transaction record, no ledger entry and no balance change persists. *)
Theorem strict_failure_leaves_no_trace env :
  useTransactions env = true →
  (∀ d w e w', deposit env d w = (Throw e, w') → durable w' = durable w) ∧
  (∀ d w e w', withdraw d w = (Throw e, w') → durable w' = durable w) ∧
  (∀ d w e w', transfer d w = (Throw e, w') → durable w' = durable w).
Proof.
  intros Henv. split_and!.
  - intros d w e w'. by apply deposit_strict_atomic.
  - apply withdraw_atomic.
  - apply transfer_atomic.
Qed.

Lemma strict_failure_leaves_no_trace_witness :
  useTransactions production = true ∧
  fst (deposit production (depositOf (Q2Qc 500))
         (failing ledgerInsertFails twoAccounts)) = Throw MongoError ∧
  durable (snd (deposit production (depositOf (Q2Qc 500))
                  (failing ledgerInsertFails twoAccounts)))
  = twoAccounts.
Proof.
  split; [reflexivity|]. split; [vm_compute; reflexivity|].
  eapply (proj1 (strict_failure_leaves_no_trace production eq_refl)
            (depositOf (Q2Qc 500)) (failing ledgerInsertFails twoAccounts)
            MongoError).
  vm_compute. reflexivity.
Defined.

(** * C5: what a successful deposit has done *)



(** * C6: what a successful transfer has done *)




(** * Running the services when the store does not fail *)

(** Unfold the monad and the driver in the goal. *)
Ltac exec :=
  cbv beta iota zeta delta
    [bind ret throw try_catch try_finally storeCall startSession
     startTransaction commitTransaction abortTransaction endSession
     newObjectId newDate draw logger generateTransactionId
     Account_findOne Account_create Account_save Transaction_create
     Transaction_save LedgerEntry_create createLedgerEntry
     createLedgerEntryWithoutTransaction view write
     set_durable set_txn set_faults set_random set_clock set_log
     set_accounts set_transactions set_ledgerEntries
     accounts transactions ledgerEntries
     durable txn faults random clock log _id fields fst snd].

Lemma matchAccount_owned acc txs led i u a :
  acc !! i = Some a → Account.userId a = u →
  matchAccount (ByIdAndUser i u) (mkCollections acc txs led) = Some (i, a).
Proof.
  intros Ha Hu. unfold matchAccount. simpl. rewrite Ha.
  by destruct (decide _).
Qed.

Lemma matchAccount_any acc txs led i :
  matchAccount (ById i) (mkCollections acc txs led) = (λ a, (i, a)) <$> acc !! i.
Proof. done. Qed.

Lemma string_nonempty_eqb s : s ≠ "" → String.eqb s "" = false.
Proof. intros H. by apply String.eqb_neq. Qed.

Lemma acceptable_Transaction tid u ty amount cur src dst desc st md at_ :
  acceptable amount cur desc →
  Transaction.validate
    (Transaction.mk tid u ty amount cur src dst desc st md at_) = true.
Proof.
  intros (Ha & Hd & Hc). unfold Transaction.validate. simpl.
  rewrite bool_decide_eq_true_2 by done.
  by rewrite !string_nonempty_eqb.
Qed.

Lemma acceptable_LedgerEntry tid i ty amount cur b prefix desc :
  acceptable amount cur desc →
  LedgerEntry.validate
    (LedgerEntry.mk tid i ty amount cur b (prefix +:+ desc)) = true.
Proof.
  intros (Ha & Hd & Hc). unfold LedgerEntry.validate. simpl.
  rewrite bool_decide_eq_true_2 by done.
  rewrite (string_nonempty_eqb cur) by done.
  rewrite string_nonempty_eqb; [done|].
  intros Hp. destruct prefix; simpl in Hp; [done|discriminate].
Qed.

(** * C7: the funds check of a withdrawal *)

(** The funds check lets a withdrawal of the whole available balance pass,
    but the withdrawal still does not succeed when that balance is below
    0.01: the Transaction schema rejects the amount, and nothing is written. *)
Lemma withdraw_all_of_half_a_cent_rejected :
  (Account.availableBalance <$> accounts halfCent !! 1%N)
    = Some (Q2Qc (1 # 200)) ∧
  WithdrawalInput.amount (withdrawalOf (Q2Qc (1 # 200))) = Q2Qc (1 # 200) ∧
  0 < Q2Qc (1 # 200) ∧
  fst (withdraw (withdrawalOf (Q2Qc (1 # 200))) (quiet halfCent))
    = Throw ValidationError ∧
  durable (snd (withdraw (withdrawalOf (Q2Qc (1 # 200))) (quiet halfCent)))
    = halfCent.
Proof. split_and!; vm_compute; reflexivity. Qed.

(** C7, amended. For an account of the caller in the requested currency,
    and a store that does not fail: a withdrawal throws "Insufficient funds"
    exactly when the available balance is strictly below the amount.  A
    withdrawal of exactly the available balance succeeds when the request is
    one the schemas accept (amount at least 0.01, non-empty description and
    currency); it lowers the balance by the amount, to 0 when the available
    balance equalled the balance. *)
Theorem withdraw_funds_check d w a :
  faults w = [] →
  accounts (durable w) !! WithdrawalInput.accountId d = Some a →
  Account.userId a = WithdrawalInput.userId d →
  Account.currency a = WithdrawalInput.currency d →
  (fst (withdraw d w) = Throw (Error "Insufficient funds")
   ↔ Account.availableBalance a < WithdrawalInput.amount d) ∧
  (WithdrawalInput.amount d = Account.availableBalance a →
   acceptable (WithdrawalInput.amount d) (WithdrawalInput.currency d)
              (WithdrawalInput.description d) →
   (∃ t, fst (withdraw d w) = Return t) ∧
   accounts (durable (snd (withdraw d w))) !! WithdrawalInput.accountId d
     = Some (Account.set_balances
               (Account.balance a - WithdrawalInput.amount d)
               (Account.availableBalance a - WithdrawalInput.amount d) a) ∧
   (Account.availableBalance a = Account.balance a →
    Account.balance a - WithdrawalInput.amount d = 0)).
Proof.
  destruct w as [[acc txs led] tx fs rs ck lg]. simpl.
  intros -> Ha Hu Hc. unfold withdraw. exec.
  rewrite (matchAccount_owned _ _ _ _ _ _ Ha Hu).
  destruct (decide (Account.currency a ≠ _)) as [Hne|_]; [done|].
  destruct (decide (Account.availableBalance a < _)) as [Hlt|Hge].
  { split; [done|]. intros Heq. rewrite Heq in Hlt.
    by destruct (Qclt_not_eq _ _ Hlt). }
  split.
  { split; [|done]. 
    destruct rs; exec; destruct (Transaction.validate _); exec;
      try destruct (LedgerEntry.validate _); exec; discriminate. }
  intros Heq Hok.
  destruct rs; exec;
    rewrite (acceptable_Transaction _ _ _ _ _ _ _ _ _ _ _ Hok); exec.
  all: rewrite (acceptable_LedgerEntry _ _ _ _ _ _ "Withdrawal: " _ Hok); exec.
  all: split; [by eexists|].
  all: split; [by rewrite lookup_insert_eq|].
  all: intros Hb; simpl; rewrite Heq, Hb; apply Qcplus_opp_r.
Qed.

Lemma withdraw_funds_check_witness :
  (∃ t, fst (withdraw (withdrawalOf (Q2Qc 1000)) (quiet twoAccounts))
        = Return t) ∧
  (Account.balance <$>
     accounts (durable (snd (withdraw (withdrawalOf (Q2Qc 1000))
                               (quiet twoAccounts)))) !! 1%N)
  = Some 0.
Proof.
  destruct (withdraw_funds_check (withdrawalOf (Q2Qc 1000))
              (quiet twoAccounts) (usd alice 1000000001 (Q2Qc 1000) ACTIVE))
    as [_ H]; [reflexivity..|].
  destruct H as (Ht & Hacc & _); [reflexivity| |].
  { split_and!; [|done..]. vm_compute. discriminate. }
  split; [exact Ht|].
  change (WithdrawalInput.accountId (withdrawalOf (Q2Qc 1000))) with 1%N
    in Hacc.
  rewrite Hacc. reflexivity.
Defined.

(** One more case split, on the goal. *)
Ltac step :=
  match goal with
  | |- context [match ?fs with [] => _ | _ :: _ => _ end] =>
      is_var fs; destruct fs as [|[] ?]
  | |- context [if decide ?P then _ else _] => destruct (decide P)
  | |- context [if ?b then _ else _] => destruct b
  end; exec.

Lemma matchAccount_ByIdAndUser_None c i u :
  matchAccount (ByIdAndUser i u) c = None →
  ¬ ∃ a, accounts c !! i = Some a ∧ Account.userId a = u.
Proof.
  unfold matchAccount. intros H (a & Ha & Hu). rewrite Ha in H.
  by destruct (decide _).
Qed.

(** * C8: which accounts a transfer looks up *)

(** C8. With a store that does not fail, a transfer throws "Source account
    not found" exactly when no account with the source id belongs to the
    caller, and it throws "Destination account not found" exactly when the
    source was found and no account at all has the destination id: the
    owner of the destination plays no part. *)
Theorem transfer_account_lookup d w :
  faults w = [] →
  (fst (transfer d w) = Throw (Error "Source account not found")
   ↔ ¬ ∃ a, accounts (durable w) !! TransferInput.sourceAccountId d = Some a
            ∧ Account.userId a = TransferInput.userId d) ∧
  (fst (transfer d w) = Throw (Error "Destination account not found")
   ↔ (∃ a, accounts (durable w) !! TransferInput.sourceAccountId d = Some a
           ∧ Account.userId a = TransferInput.userId d)
     ∧ accounts (durable w) !! TransferInput.destinationAccountId d = None).
Proof.
  destruct w as [[acc txs led] tx fs rs ck lg]. simpl. intros ->.
  unfold transfer. exec.
  destruct (matchAccount (ByIdAndUser _ _) _) as [[i src]|] eqn:Hs; exec.
  2: { apply matchAccount_ByIdAndUser_None in Hs. simpl in Hs.
       split; split; try done. by intros []. }
  apply matchAccount_ByIdAndUser in Hs as (-> & Hs & Hu). simpl in Hs.
  rewrite matchAccount_any.
  destruct (acc !! TransferInput.destinationAccountId d) as [dst|] eqn:Hd;
    simpl.
  2: { split; split; try done.
       - intros Hno. destruct Hno. eauto.
       - eauto. }
  split; split.
  2: { intros Hno. destruct Hno. eauto. }
  3: { by intros [_ [=]]. }
  all: repeat step; discriminate.
Qed.

Lemma transfer_account_lookup_witness :
  fst (transfer (TransferInput.mk alice 1 9 (Q2Qc 500) "USD" "rent" None)
         (quiet twoAccounts))
  = Throw (Error "Destination account not found") ∧
  (∃ t, fst (transfer (transferOf (Q2Qc 500)) (quiet twoAccounts)) = Return t).
Proof.
  split; [|eexists; vm_compute; reflexivity].
  apply (transfer_account_lookup
           (TransferInput.mk alice 1 9 (Q2Qc 500) "USD" "rent" None)
           (quiet twoAccounts) eq_refl).
  split; [|vm_compute; reflexivity].
  exists (usd alice 1000000001 (Q2Qc 1000) ACTIVE).
  split; vm_compute; reflexivity.
Defined.

(** * C9: closing an account *)

Lemma closeAccount_Return_inv env i u w doc w' :
  closeAccount env i u w = (Return doc, w') →
  ∃ a, accounts (durable w) !! i = Some a ∧
       Account.userId a = u ∧
       Account.balance a = 0 ∧
       doc = (i, Account.set_status CLOSED a) ∧
       durable w' =
         mkCollections (<[i := Account.set_status CLOSED a]>
                          (accounts (durable w)))
                       (transactions (durable w))
                       (ledgerEntries (durable w)).
Proof.
  intros H. destruct w as [[acc txs led] tx fs rs ck lg].
  unfold closeAccount, closeAccountWithTransaction,
    closeAccountWithoutTransaction in H.
  destruct (useTransactions env); exec_in H; repeat step_in H;
    injection H as <- <-; finish_inv; by eexists.
Qed.

(** C9. A call of closeAccount that returns found the balance of the
    account at exactly zero and set its status, and nothing else, to CLOSED.
    For an account of the caller with another balance the call throws and
    leaves the committed collections untouched, status included; when the
    store does not fail the error is "Account must have zero balance to be
    closed". *)
Theorem closeAccount_requires_zero_balance env i u w :
  (∀ doc w', closeAccount env i u w = (Return doc, w') →
     ∃ a, accounts (durable w) !! i = Some a ∧
          Account.userId a = u ∧
          Account.balance a = 0 ∧
          fields doc = Account.set_status CLOSED a ∧
          accounts (durable w') !! i = Some (Account.set_status CLOSED a)) ∧
  (∀ a, accounts (durable w) !! i = Some a →
        Account.userId a = u →
        Account.balance a ≠ 0 →
        durable (snd (closeAccount env i u w)) = durable w ∧
        (∃ e, fst (closeAccount env i u w) = Throw e) ∧
        (faults w = [] →
         fst (closeAccount env i u w)
         = Throw (Error "Account must have zero balance to be closed"))).
Proof.
  split.
  - intros doc w' H.
    destruct (closeAccount_Return_inv _ _ _ _ _ _ H)
      as (a & Ha & Hu & Hb & -> & ->).
    exists a. simpl. by rewrite lookup_insert_eq.
  - intros a Ha Hu Hb.
    destruct w as [[acc txs led] tx fs rs ck lg]. simpl in Ha.
    unfold closeAccount, closeAccountWithTransaction,
      closeAccountWithoutTransaction.
    destruct (useTransactions env); exec;
      repeat (rewrite ?(matchAccount_owned _ _ _ _ _ _ Ha Hu); step);
      try done;
      (split_and!; [done|by eexists|done]).
Qed.

Lemma closeAccount_requires_zero_balance_witness :
  fst (closeAccount production 1 alice (quiet twoAccounts))
  = Throw (Error "Account must have zero balance to be closed") ∧
  durable (snd (closeAccount production 1 alice (quiet twoAccounts)))
  = twoAccounts.
Proof.
  destruct (proj2 (closeAccount_requires_zero_balance production 1 alice
                     (quiet twoAccounts))
              (usd alice 1000000001 (Q2Qc 1000) ACTIVE))
    as (Hd & _ & He); [reflexivity|reflexivity|vm_compute; discriminate|].
  split; [by apply He|exact Hd].
Defined.

(** * C2: reconciling the ledger with the balances *)

Lemma generateAccountNumber_loop_reads draws w r w' :
  generateAccountNumber_loop draws w = Some (r, w') →
  durable w' = durable w ∧ txn w' = txn w.
Proof.
  revert w. induction draws as [|x rest IH]; intros w H; [done|].
  simpl in H.
  destruct (Account_findOne _ _ _) as [[[found|]|e] w1] eqn:E.
  - apply IH in H as [-> ->]. clear IH.
    destruct w as [c tx fs rs ck lg]. exec_in E.
    destruct fs as [|[] fs]; by simplify_eq.
  - simplify_eq. destruct w as [c tx fs rs ck lg]. exec_in E.
    destruct fs as [|[] fs]; by simplify_eq.
  - simplify_eq. destruct w as [c tx fs rs ck lg]. exec_in E.
    destruct fs as [|[] fs]; by simplify_eq.
Qed.

Lemma createAccount_Return_inv accountData w account w' :
  createAccount accountData w = Some (Return account, w') →
  (_id account ∉ dom (accounts (durable w))) ∧
  Account.balance (fields account)
    = orZero (CreateAccountInput.initialBalance accountData) ∧
  durable w' =
    mkCollections (<[_id account := fields account]> (accounts (durable w)))
                  (transactions (durable w))
                  (ledgerEntries (durable w)).
Proof.
  unfold createAccount, generateAccountNumber. intros H.
  destruct (generateAccountNumber_loop _ _) as [[[n|e] w1]|] eqn:E;
    [|exec_in H; simplify_eq|done].
  apply generateAccountNumber_loop_reads in E as [Hd Ht].
  destruct w1 as [[acc txs led] tx fs rs ck lg]. simpl in Hd, Ht.
  rewrite <-Hd. clear Hd Ht.
  exec_in H. repeat step_in H; injection H as <- <-; simpl.
  all: split_and!; [|done..].
  all: apply (fresh_unused _ acc txs led).
Qed.





(** A transfer from an account to itself also breaks the reconciliation,
    for an account opened with nothing: after a deposit of 1000 and such a
    transfer of 500 the balance is 1500 while the entries sum to 1000. *)
Example transfer_to_self_breaks_reconciliation :
  history (durable (snd (transfer transferToSelfOnOpened afterDeposit1000))) ∧
  (Account.balance <$>
     accounts (durable (snd (transfer transferToSelfOnOpened
                               afterDeposit1000))) !! 0%N)
    = Some (Q2Qc 1500) ∧
  ledgerSum 0 (ledgerEntries
                 (durable (snd (transfer transferToSelfOnOpened
                                  afterDeposit1000))))
    = Q2Qc 1000.
Proof.
  split; [|split; vm_compute; reflexivity].
  eapply (history_transfer afterDeposit1000 transferToSelfOnOpened
            (2%N, Transaction.mk 0 alice TRANSFER (Q2Qc 500) "USD"
                    (Some 0%N) (Some 0%N) "loop" COMPLETED [] (Some 0%N)));
    [|vm_compute; reflexivity].
  change (history (durable (snd (deposit production deposit1000
                                   afterOpeningEmpty)))).
  eapply (history_deposit production afterOpeningEmpty deposit1000
            (1%N, Transaction.mk 0 alice DEPOSIT (Q2Qc 1000) "USD"
                    None (Some 0%N) "salary" COMPLETED [] (Some 0%N)));
    [|vm_compute; reflexivity].
  eapply (history_createAccount emptyStore openWithNothing
            (0%N, Account.mk alice 1000000005 "Main" ASSET "USD" 0 0
                    ACTIVE []));
    [apply history_empty|vm_compute; reflexivity].
Qed.



(** * C10: the status of an account plays no part *)

Section status.
Variable f : AccountStatus → AccountStatus.



























End status.








(** A deposit on a closed account goes through. *)
Example deposit_on_closed_account :
  ∃ t, fst (deposit production (depositOf (Q2Qc 500))
              (restatusWorld (λ _, CLOSED) (quiet twoAccounts))) = Return t ∧
       (Account.balance <$>
          accounts (durable (snd (deposit production (depositOf (Q2Qc 500))
                                    (restatusWorld (λ _, CLOSED)
                                       (quiet twoAccounts))))) !! 1%N)
       = Some (Q2Qc 1500).
Proof. eexists. split; vm_compute; reflexivity. Qed.

(** * C3: which operations follow the strategy flag *)

(** C3, evaluated on the code. In a development process the flag is off and
    deposit runs its writes one by one: when the fourth store call throws,
    the pending transaction and the ledger entry written before stay in the
    store, without the balance update.  A withdrawal and a transfer in the
    same process still open a session: when a store call throws in the
    middle of their writes, nothing stays. *)
Theorem withdraw_and_transfer_ignore_the_flag :
  useTransactions development = false ∧
  (Transaction.status <$>
     transactions (durable (snd (deposit development (depositOf (Q2Qc 500))
                                   (failing ledgerInsertFails twoAccounts))))
       !! 3%N) = Some PENDING ∧
  length (ledgerEntries
            (durable (snd (deposit development (depositOf (Q2Qc 500))
                             (failing ledgerInsertFails twoAccounts))))) = 1%nat ∧
  accounts (durable (snd (deposit development (depositOf (Q2Qc 500))
                            (failing ledgerInsertFails twoAccounts))))
    = accounts twoAccounts ∧
  fst (withdraw (withdrawalOf (Q2Qc 500))
         (failing ledgerInsertFails twoAccounts)) = Throw MongoError ∧
  durable (snd (withdraw (withdrawalOf (Q2Qc 500))
                  (failing ledgerInsertFails twoAccounts))) = twoAccounts ∧
  fst (transfer (transferOf (Q2Qc 500))
         (failing (false :: ledgerInsertFails) twoAccounts))
    = Throw MongoError ∧
  durable (snd (transfer (transferOf (Q2Qc 500))
                  (failing (false :: ledgerInsertFails) twoAccounts)))
    = twoAccounts.
Proof. split_and!; vm_compute; reflexivity. Qed.

(** * C4: what a failed probe changes *)

(** C4, evaluated on the code. In a production process whose probe fails
    (the connection succeeds, [startSession] throws), [connectDB] returns
    normally and logs the warning about running in fallback mode; the flag is
    a constant of the module and stays on.  A later deposit therefore still
    runs in a session: when its ledger insertion throws, nothing of it
    stays in the store. *)
Theorem failed_probe_changes_nothing :
  fst (connectDB production (failing [false; true] twoAccounts)) = Return tt ∧
  log (snd (connectDB production (failing [false; true] twoAccounts)))
    = [(INFO, "MongoDB connected successfully");
       (ERROR, "MongoDB transaction support unavailable:");
       (WARN, "Running in fallback mode without transaction support. NOT recommended for production!")] ∧
  useTransactions production = true ∧
  (∀ d, deposit production d
        = try_catch (depositWithTransaction d)
            (λ error, await _ ← logger ERROR "Deposit error:"; throw error)) ∧
  durable (snd (deposit production (depositOf (Q2Qc 500))
                  (set_faults ledgerInsertFails
                     (snd (connectDB production
                             (failing [false; true] twoAccounts))))))
    = twoAccounts.
Proof. split_and!; try reflexivity; vm_compute; reflexivity. Qed.

(** * More on what successful calls have done *)



(** * Opening an account *)

Lemma createAccount_Return_fields accountData w account w' :
  createAccount accountData w = Some (Return account, w') →
  ∃ accountNumber,
    fields account =
      Account.mk (CreateAccountInput.userId accountData) accountNumber
        (CreateAccountInput.name accountData)
        (CreateAccountInput.type accountData)
        (CreateAccountInput.currency accountData)
        (orZero (CreateAccountInput.initialBalance accountData))
        (orZero (CreateAccountInput.initialBalance accountData))
        ACTIVE
        (default [] (CreateAccountInput.metadata accountData)) ∧
    matchAccount (ByAccountNumber accountNumber) (durable w) = None ∧
    (∃ r, accountNumber = candidateNumber r).
Proof.
  unfold createAccount, generateAccountNumber. intros H.
  destruct (generateAccountNumber_loop _ _) as [[[n|e] w1]|] eqn:E;
    [|exec_in H; simplify_eq|done].
  exists n.
  assert (matchAccount (ByAccountNumber n) (durable w) = None
          ∧ ∃ r, n = candidateNumber r) as Hn.
  { clear H. revert E. generalize (random w). intros draws. revert w.
    induction draws as [|x rest IH]; intros w E; [done|].
    simpl in E.
    destruct (Account_findOne _ _ _) as [[[found|]|e] w2] eqn:E2.
    - assert (durable w2 = durable w) as Hd.
      { destruct w as [c tx fs rs ck lg]. exec_in E2.
        destruct fs as [|[] fs]; by simplify_eq. }
      rewrite <-Hd. by apply IH.
    - simplify_eq. split; [|by eexists].
      destruct w as [c tx fs rs ck lg]. exec_in E2.
      destruct fs as [|[] fs]; by simplify_eq.
    - simplify_eq. }
  destruct Hn as [Hn1 Hn2]. split_and!; [|done..].
  destruct w1 as [[acc txs led] tx fs rs ck lg].
  exec_in H. repeat step_in H; by injection H as <- <-.
Qed.

Lemma matchAccount_ByAccountNumber_None c n :
  matchAccount (ByAccountNumber n) c = None ↔
  ∀ i a, accounts c !! i = Some a → Account.accountNumber a ≠ n.
Proof.
  unfold matchAccount. rewrite head_None. split.
  - intros H i a Ha Hn.
    apply (filter_nil_not_elem_of _ _ (i, a) H); [done|].
    by apply elem_of_map_to_list.
  - intros H. destruct (filter _ _) as [|[i a] l] eqn:E; [done|].
    assert ((i, a) ∈ filter (λ d, Account.accountNumber d.2 = n)
                       (map_to_list (accounts c))) as Hin
      by (rewrite E; left).
    apply list_elem_of_filter in Hin as [Hn Hin].
    apply elem_of_map_to_list in Hin. by destruct (H i a).
Qed.

Lemma matchAccount_ByAccountNumber_Some c n d :
  matchAccount (ByAccountNumber n) c = Some d →
  accounts c !! _id d = Some (fields d) ∧
  Account.accountNumber (fields d) = n.
Proof.
  unfold matchAccount. intros H. apply head_Some_elem_of in H.
  apply list_elem_of_filter in H as [Hn Hin]. destruct d as [i a].
  by apply elem_of_map_to_list in Hin.
Qed.




(** * Two invariants of the histories *)




(** X4. In every such store the available balance of each account
    equals its balance: the services always move the two together. *)
Theorem balances_stay_in_lockstep c :
  history c → inLockstep c.
Proof.
  induction 1 as [|w accountData account w' _ IH H
                  |env w d t w' _ IH H
                  |w d t w' _ IH H
                  |w d t w' _ IH H].
  - intros i a Ha. simpl in Ha. by rewrite lookup_empty in Ha.
  - destruct (createAccount_Return_inv _ _ _ _ H) as (_ & _ & ->).
    destruct (createAccount_Return_fields _ _ _ _ H) as (n & Hf & _).
    intros i a. simpl.
    destruct (decide (_id account = i)) as [<-|Hi];
      rewrite ?lookup_insert_eq, ?lookup_insert_ne by done; [|apply IH].
    intros [= <-]. by rewrite Hf.
  - apply deposit_Return_inv in H
      as (a & tid & at_ & Ha & Hu & Hc & Hfresh & Ht & ->).
    intros i x. simpl.
    destruct (decide (DepositInput.accountId d = i)) as [<-|Hi];
      rewrite ?lookup_insert_eq, ?lookup_insert_ne by done; [|apply IH].
    intros [= <-]. simpl. by rewrite (IH _ _ Ha).
  - apply withdraw_Return_inv in H
      as (a & tid & at_ & Ha & Hu & Hc & Hav & Hfresh & Ht & ->).
    intros i x. simpl.
    destruct (decide (WithdrawalInput.accountId d = i)) as [<-|Hi];
      rewrite ?lookup_insert_eq, ?lookup_insert_ne by done; [|apply IH].
    intros [= <-]. simpl. by rewrite (IH _ _ Ha).
  - apply transfer_Return_inv in H
      as (src & dst & tid & at_ & Hs & Hu & Hd & Hcs & Hcd & Hav & Hfresh
          & Ht & ->).
    intros i x. simpl.
    destruct (decide (TransferInput.destinationAccountId d = i)) as [<-|Hi];
      rewrite ?lookup_insert_eq, ?lookup_insert_ne by done.
    { intros [= <-]. simpl. by rewrite (IH _ _ Hd). }
    destruct (decide (TransferInput.sourceAccountId d = i)) as [<-|Hj];
      rewrite ?lookup_insert_eq, ?lookup_insert_ne by done; [|apply IH].
    intros [= <-]. simpl. by rewrite (IH _ _ Hs).
Qed.

Lemma balances_stay_in_lockstep_witness : inLockstep afterOpening.
Proof.
  apply balances_stay_in_lockstep.
  apply (history_createAccount emptyStore openWith1000 opened
           (quiet afterOpening)); [apply history_empty|].
  vm_compute. reflexivity.
Defined.

(** * The money in the store *)





(** * Properties of the store that every call keeps

    A property of stores that survives a write to the accounts, the
    insertion of a ledger entry and the insertion of a transaction record
    that is [good] is kept by each operation of the driver and of the
    models, in the committed collections and in the copy of an open
    transaction. *)

Section keeps.
Variable P : Collections → Prop.
Variable good : Transaction.t → Prop.
Hypothesis P_accounts : ∀ F c, P c → P (set_accounts F c).
Hypothesis P_ledger : ∀ e c, P c → P (set_ledgerEntries (λ l, l ++ [e]) c).
Hypothesis P_transactions :
  ∀ i t c, good t → P c → P (set_transactions <[i := t]> c).

Lemma keeps_ret {A} (a : A) : keeps P (ret a).
Proof. by intros w r w' H1 H2 [= <- <-]. Qed.

Lemma keeps_throw {A} e : keeps P (@throw A e).
Proof. by intros w r w' H1 H2 [= <- <-]. Qed.

Lemma keeps_bind {A B} (m : Async A) (k : A → Async B) :
  keeps P m → (∀ a, keeps P (k a)) → keeps P (bind m k).
Proof.
  intros Hm Hk w r w' H1 H2 H. unfold bind in H.
  destruct (m w) as [[a|e] w1] eqn:E; destruct (Hm _ _ _ H1 H2 E) as [H3 H4].
  - by apply (Hk a w1 r w').
  - by injection H as <- <-.
Qed.

Lemma keeps_bind_throw {A B} e (k : A → Async B) :
  keeps P (bind (throw e) k).
Proof. by intros w r w' H1 H2 [= <- <-]. Qed.

Lemma keeps_try_catch {A} (b : Async A) h :
  keeps P b → (∀ e, keeps P (h e)) → keeps P (try_catch b h).
Proof.
  intros Hb Hh w r w' H1 H2 H. unfold try_catch in H.
  destruct (b w) as [[a|e] w1] eqn:E; destruct (Hb _ _ _ H1 H2 E) as [H3 H4].
  - by injection H as <- <-.
  - by apply (Hh e w1 r w').
Qed.

Lemma keeps_try_finally {A} (b : Async A) c :
  keeps P b → keeps P c → keeps P (try_finally b c).
Proof.
  intros Hb Hc w r w' H1 H2 H. unfold try_finally in H.
  destruct (b w) as [r1 w1] eqn:E. destruct (Hb _ _ _ H1 H2 E) as [H3 H4].
  destruct (c w1) as [[[]|e] w2] eqn:E2;
    destruct (Hc _ _ _ H3 H4 E2); by injection H as <- <-.
Qed.

Lemma keeps_storeCall : keeps P storeCall.
Proof.
  intros w r w' H1 H2 H. unfold storeCall in H.
  destruct (faults w) as [|[] fs]; by injection H as <- <-.
Qed.

Lemma keeps_startSession : keeps P startSession.
Proof. apply keeps_bind; [apply keeps_storeCall|intros; apply keeps_ret]. Qed.

Lemma keeps_startTransaction s : keeps P (startTransaction s).
Proof. intros w r w' H1 H2 [= <- <-]. simpl. split; [done|]. by intros c [= <-]. Qed.

Lemma keeps_commitTransaction s : keeps P (commitTransaction s).
Proof.
  apply keeps_bind; [apply keeps_storeCall|intros _].
  intros w r w' H1 H2 H. destruct (txn w) as [c|] eqn:E; injection H as <- <-.
  - simpl. split; [by apply H2|done].
  - by rewrite E.
Qed.

Lemma keeps_abortTransaction s : keeps P (abortTransaction s).
Proof.
  apply keeps_bind; [|intros _; apply keeps_storeCall].
  by intros w r w' H1 H2 [= <- <-].
Qed.

Lemma keeps_endSession s : keeps P (endSession s).
Proof. by intros w r w' H1 H2 [= <- <-]. Qed.

Lemma keeps_logger l s : keeps P (logger l s).
Proof. by intros w r w' H1 H2 [= <- <-]. Qed.

Lemma keeps_newDate : keeps P newDate.
Proof. by intros w r w' H1 H2 [= <- <-]. Qed.

Lemma keeps_newObjectId : keeps P newObjectId.
Proof. by intros w r w' H1 H2 [= <- <-]. Qed.

Lemma keeps_generateTransactionId : keeps P generateTransactionId.
Proof.
  intros w r w' H1 H2 H. unfold generateTransactionId, draw in H.
  destruct (random w); by injection H as <- <-.
Qed.

Lemma keeps_write s F :
  (∀ c, P c → P (F c)) → keeps P (λ w, (Return tt, write s F w)).
Proof.
  intros HF w r w' H1 H2 [= <- <-]. unfold write.
  destruct s as [s|]; [destruct (txn w) as [c|] eqn:E|]; simpl.
  - split; [done|]. intros c' [= <-]. by apply HF, H2.
  - rewrite E. split; [by apply HF|done].
  - split; [by apply HF|done].
Qed.

Lemma keeps_Account_findOne q s : keeps P (Account_findOne q s).
Proof.
  apply keeps_bind; [apply keeps_storeCall|intros _].
  by intros w r w' H1 H2 [= <- <-].
Qed.

Lemma keeps_Transaction_findOne i u s : keeps P (Transaction_findOne i u s).
Proof.
  apply keeps_bind; [apply keeps_storeCall|intros _].
  by intros w r w' H1 H2 [= <- <-].
Qed.

Lemma keeps_Account_save d s : keeps P (Account_save d s).
Proof.
  apply keeps_bind; [apply keeps_storeCall|intros _].
  apply keeps_write. apply P_accounts.
Qed.

Lemma keeps_Account_create d s : keeps P (Account_create d s).
Proof.
  unfold Account_create. destruct (Account.validate _); [|apply keeps_throw].
  apply keeps_bind; [apply keeps_storeCall|intros _].
  apply keeps_write. apply P_accounts.
Qed.

Lemma keeps_Account_findOneAndUpdate q f s :
  keeps P (Account_findOneAndUpdate q f s).
Proof.
  apply keeps_bind; [apply keeps_storeCall|intros _].
  intros w r w' H1 H2 H. destruct (matchAccount _ _) as [d|].
  - injection H as <- <-.
    by eapply (keeps_write s _ (P_accounts _) w (Return tt)).
  - by injection H as <- <-.
Qed.

Lemma keeps_Transaction_save d s :
  good (fields d) → keeps P (Transaction_save d s).
Proof.
  intros Hd. apply keeps_bind; [apply keeps_storeCall|intros _].
  apply keeps_write. intros c. by apply P_transactions.
Qed.

Lemma keeps_LedgerEntry_create e s : keeps P (LedgerEntry_create e s).
Proof.
  unfold LedgerEntry_create.
  destruct (LedgerEntry.validate _); [|apply keeps_throw].
  apply keeps_bind; [apply keeps_storeCall|intros _].
  apply keeps_write. apply P_ledger.
Qed.

Lemma keeps_createLedgerEntry i a ty am cu b de s :
  keeps P (createLedgerEntry i a ty am cu b de s).
Proof.
  apply keeps_bind; [apply keeps_LedgerEntry_create|intros _].
  apply keeps_ret.
Qed.

Lemma keeps_createLedgerEntryWithoutTransaction i a ty am cu b de :
  keeps P (createLedgerEntryWithoutTransaction i a ty am cu b de).
Proof.
  apply keeps_bind; [apply keeps_LedgerEntry_create|intros _].
  apply keeps_ret.
Qed.

End keeps.

Lemma Transaction_create_valid d s :
  Transaction.validate (fields d) = true →
  Transaction_create d s = Transaction_save d s.
Proof. intros H. unfold Transaction_create. by rewrite H. Qed.

Lemma Transaction_create_invalid d s :
  Transaction.validate (fields d) = false →
  Transaction_create d s = throw ValidationError.
Proof. intros H. unfold Transaction_create. by rewrite H. Qed.

(** The services only store transaction records that passed the schema,
    first PENDING and then completed: a property kept by the driver is kept
    by every service as soon as such records are [good]. *)

Section keeps_services.
Variable P : Collections → Prop.
Variable good : Transaction.t → Prop.
Hypothesis P_accounts : ∀ F c, P c → P (set_accounts F c).
Hypothesis P_ledger : ∀ e c, P c → P (set_ledgerEntries (λ l, l ++ [e]) c).
Hypothesis P_transactions :
  ∀ i t c, good t → P c → P (set_transactions <[i := t]> c).
Hypothesis good_pending :
  ∀ t, Transaction.validate t = true → Transaction.status t = PENDING →
       Transaction.completedAt t = None → movement t → good t.
Hypothesis good_complete :
  ∀ t now, Transaction.validate t = true → movement t →
           good (Transaction.complete now t).

Ltac keeps_step :=
  lazymatch goal with
  | |- keeps _ (let _ := _ in _) => cbv zeta
  | |- keeps _ (match ?x with Some _ => _ | None => _ end) => destruct x
  | |- keeps _ (if ?b then _ else _) => destruct b
  | |- keeps _ (try_finally _ _) => apply keeps_try_finally
  | |- keeps _ (try_catch _ _) => apply keeps_try_catch; [|intros ?]
  | |- keeps _ (bind (Transaction_create ?d ?s) _) =>
      let Hv := fresh "Hv" in
      destruct (Transaction.validate (fields d)) eqn:Hv;
      [rewrite (Transaction_create_valid d s Hv);
       (apply keeps_bind; [|intros ?])
      |rewrite (Transaction_create_invalid d s Hv); apply keeps_bind_throw]
  | |- keeps _ (bind _ _) => apply keeps_bind; [|intros ?]
  | |- keeps _ (ret _) => apply keeps_ret
  | |- keeps _ (throw _) => apply keeps_throw
  | |- keeps _ storeCall => apply keeps_storeCall
  | |- keeps _ startSession => apply keeps_startSession
  | |- keeps _ (startTransaction _) => apply keeps_startTransaction
  | |- keeps _ (commitTransaction _) => apply keeps_commitTransaction
  | |- keeps _ (abortTransaction _) => apply keeps_abortTransaction
  | |- keeps _ (endSession _) => apply keeps_endSession
  | |- keeps _ (logger _ _) => apply keeps_logger
  | |- keeps _ newDate => apply keeps_newDate
  | |- keeps _ newObjectId => apply keeps_newObjectId
  | |- keeps _ generateTransactionId => apply keeps_generateTransactionId
  | |- keeps _ (Account_findOne _ _) => apply keeps_Account_findOne
  | |- keeps _ (Transaction_findOne _ _ _) => apply keeps_Transaction_findOne
  | |- keeps _ (Account_save _ _) =>
      apply keeps_Account_save; exact P_accounts
  | |- keeps _ (Account_create _ _) =>
      apply keeps_Account_create; exact P_accounts
  | |- keeps _ (Account_findOneAndUpdate _ _ _) =>
      apply keeps_Account_findOneAndUpdate; exact P_accounts
  | |- keeps _ (createLedgerEntry _ _ _ _ _ _ _ _) =>
      apply keeps_createLedgerEntry; exact P_ledger
  | |- keeps _ (createLedgerEntryWithoutTransaction _ _ _ _ _ _ _) =>
      apply keeps_createLedgerEntryWithoutTransaction; exact P_ledger
  | |- keeps _ (Transaction_save _ _) =>
      apply (keeps_Transaction_save P good P_transactions);
      first [ apply good_complete; [assumption|unfold movement; simpl; tauto]
            | apply good_pending;
              [assumption|reflexivity|reflexivity
              |unfold movement; simpl; tauto] ]
  end.

Lemma keeps_deposit env d : keeps P (deposit env d).
Proof.
  unfold deposit, depositWithTransaction, depositWithoutTransaction.
  destruct (useTransactions env); repeat keeps_step.
Qed.

Lemma keeps_withdraw d : keeps P (withdraw d).
Proof. unfold withdraw. repeat keeps_step. Qed.

Lemma keeps_transfer d : keeps P (transfer d).
Proof. unfold transfer. repeat keeps_step. Qed.

Lemma keeps_closeAccount env i u : keeps P (closeAccount env i u).
Proof.
  unfold closeAccount, closeAccountWithTransaction,
    closeAccountWithoutTransaction.
  destruct (useTransactions env); repeat keeps_step.
Qed.

Lemma keeps_updateAccount i u x : keeps P (updateAccount i u x).
Proof. unfold updateAccount. repeat keeps_step. Qed.

Lemma keeps_updateAccountBalance i x s : keeps P (updateAccountBalance i x s).
Proof. unfold updateAccountBalance. repeat keeps_step. Qed.

Lemma keeps_createAccount accountData w r w' :
  P (durable w) → (∀ c, txn w = Some c → P c) →
  createAccount accountData w = Some (r, w') →
  P (durable w') ∧ (∀ c, txn w' = Some c → P c).
Proof.
  unfold createAccount, generateAccountNumber. intros H1 H2 H.
  destruct (generateAccountNumber_loop _ _) as [[[n|e] w1]|] eqn:E; [| |done].
  - apply generateAccountNumber_loop_reads in E as [Hd Ht].
    rewrite <-Hd in H1. rewrite <-Ht in H2.
    injection H as H. revert H. generalize w1 r w' H1 H2.
    change (keeps P
      (try_catch
         (await id ← newObjectId;
          let account : Doc Account.t :=
            (id, Account.mk (CreateAccountInput.userId accountData) n
                   (CreateAccountInput.name accountData)
                   (CreateAccountInput.type accountData)
                   (CreateAccountInput.currency accountData)
                   (orZero (CreateAccountInput.initialBalance accountData))
                   (orZero (CreateAccountInput.initialBalance accountData))
                   ACTIVE
                   (default [] (CreateAccountInput.metadata accountData))) in
          await _ ← Account_create account None;
          ret account)
         (λ error,
          await _ ← logger ERROR "Error creating account:";
          throw error))).
    repeat keeps_step.
  - apply generateAccountNumber_loop_reads in E as [Hd Ht].
    rewrite <-Hd in H1. rewrite <-Ht in H2.
    exec_in H. by injection H as <- <-.
Qed.

End keeps_services.

(** ** The ledger is append-only *)







(** ** Transaction records stay well formed *)

Lemma validate_amount t :
  Transaction.validate t = true → Q2Qc (1 # 100) ≤ Transaction.amount t.
Proof.
  unfold Transaction.validate. rewrite !andb_true_iff.
  intros [[H _] _]. by apply bool_decide_eq_true in H.
Qed.

Lemma wellFormed_accounts F c :
  wellFormedTransactions c → wellFormedTransactions (set_accounts F c).
Proof. done. Qed.

Lemma wellFormed_ledger e c :
  wellFormedTransactions c →
  wellFormedTransactions (set_ledgerEntries (λ l, l ++ [e]) c).
Proof. done. Qed.

Lemma wellFormed_transactions i t c :
  wellFormed t → wellFormedTransactions c →
  wellFormedTransactions (set_transactions <[i := t]> c).
Proof.
  intros Ht Hc j x. simpl. destruct (decide (i = j)) as [<-|Hj].
  - rewrite lookup_insert_eq. by intros [= <-].
  - rewrite lookup_insert_ne by done. apply Hc.
Qed.

Lemma wellFormed_pending t :
  Transaction.validate t = true → Transaction.status t = PENDING →
  Transaction.completedAt t = None → movement t → wellFormed t.
Proof.
  intros Hv Hs Hc Hm. split_and!; [by left|done|by apply validate_amount].
Qed.

Lemma wellFormed_complete t now :
  Transaction.validate t = true → movement t →
  wellFormed (Transaction.complete now t).
Proof.
  intros Hv Hm. split_and!; [right; by eauto|done|by apply validate_amount].
Qed.

(** X7. Transaction records stay well formed through every call
    of the services, however it ends: each is PENDING without completion
    date or COMPLETED with one, is a deposit, a withdrawal or a transfer, and
    has an amount of at least 0.01. *)
Theorem transactions_stay_well_formed w :
  txn w = None → wellFormedTransactions (durable w) →
  (∀ env d, wellFormedTransactions (durable (snd (deposit env d w)))) ∧
  (∀ d, wellFormedTransactions (durable (snd (withdraw d w)))) ∧
  (∀ d, wellFormedTransactions (durable (snd (transfer d w)))) ∧
  (∀ env i u, wellFormedTransactions
                (durable (snd (closeAccount env i u w)))) ∧
  (∀ i u x, wellFormedTransactions (durable (snd (updateAccount i u x w)))) ∧
  (∀ i x s, wellFormedTransactions
              (durable (snd (updateAccountBalance i x s w)))) ∧
  (∀ a r w', createAccount a w = Some (r, w') →
             wellFormedTransactions (durable w')).
Proof.
  intros Ht Hw.
  assert (∀ A (m : Async A), keeps wellFormedTransactions m →
            wellFormedTransactions (durable (snd (m w)))) as Hrun.
  { intros A m Hm. destruct (m w) as [r w'] eqn:E.
    destruct (Hm w r w') as [H _];
      [done|intros c; by rewrite Ht|done|exact H]. }
  pose proof wellFormed_accounts as HA.
  pose proof wellFormed_ledger as HL.
  pose proof wellFormed_transactions as HT.
  pose proof wellFormed_pending as HP.
  pose proof wellFormed_complete as HC.
  split_and!; intros.
  - apply Hrun. by apply (keeps_deposit _ wellFormed).
  - apply Hrun. by apply (keeps_withdraw _ wellFormed).
  - apply Hrun. by apply (keeps_transfer _ wellFormed).
  - apply Hrun. by apply keeps_closeAccount.
  - apply Hrun. by apply keeps_updateAccount.
  - apply Hrun. by apply keeps_updateAccountBalance.
  - edestruct (keeps_createAccount wellFormedTransactions) as [H' _];
      [done|done|intros c; by rewrite Ht|done|exact H'].
Qed.

Lemma transactions_stay_well_formed_witness :
  wellFormedTransactions
    (durable (snd (deposit development (depositOf (Q2Qc 500))
                     (quiet twoAccounts)))).
Proof.
  refine (proj1 (transactions_stay_well_formed (quiet twoAccounts) eq_refl _)
            development (depositOf (Q2Qc 500))).
  intros i t H. simpl in H. by rewrite lookup_empty in H.
Defined.

(** * Requests the schemas refuse *)

Lemma acceptable_of_validate tid u ty amount cur src dst desc st md at_ :
  Transaction.validate
    (Transaction.mk tid u ty amount cur src dst desc st md at_) = true →
  acceptable amount cur desc.
Proof.
  unfold Transaction.validate. simpl. rewrite !andb_true_iff, !negb_true_iff.
  intros [[Ha Hd] Hc]. apply bool_decide_eq_true in Ha.
  apply String.eqb_neq in Hd, Hc. done.
Qed.

Ltac refuse Hno :=
  match goal with
  | H : Transaction.validate _ = true |- _ =>
      destruct Hno; exact (acceptable_of_validate _ _ _ _ _ _ _ _ _ _ _ H)
  end.

(** X8. A request the schemas refuse (an amount under 0.01, an
    empty description or currency) never writes: deposit, withdraw and
    transfer throw and leave the committed collections as they were, with or
    without sessions and whatever the store does. *)
Theorem unacceptable_requests_write_nothing :
  (∀ env d w,
     ¬ acceptable (DepositInput.amount d) (DepositInput.currency d)
                  (DepositInput.description d) →
     (∃ e, fst (deposit env d w) = Throw e) ∧
     durable (snd (deposit env d w)) = durable w) ∧
  (∀ d w,
     ¬ acceptable (WithdrawalInput.amount d) (WithdrawalInput.currency d)
                  (WithdrawalInput.description d) →
     (∃ e, fst (withdraw d w) = Throw e) ∧
     durable (snd (withdraw d w)) = durable w) ∧
  (∀ d w,
     ¬ acceptable (TransferInput.amount d) (TransferInput.currency d)
                  (TransferInput.description d) →
     (∃ e, fst (transfer d w) = Throw e) ∧
     durable (snd (transfer d w)) = durable w).
Proof.
  split_and!.
  - intros env d w Hno. destruct (deposit env d w) as [r w'] eqn:H.
    destruct w as [[acc txs led] tx fs rs ck lg].
    unfold deposit, depositWithTransaction, depositWithoutTransaction in H.
    destruct (useTransactions env); exec_in H; repeat step_in H;
      try refuse Hno; injection H as <- <-; simpl; by eauto.
  - intros d w Hno. destruct (withdraw d w) as [r w'] eqn:H.
    destruct w as [[acc txs led] tx fs rs ck lg].
    unfold withdraw in H.
    exec_in H; repeat step_in H;
      try refuse Hno; injection H as <- <-; simpl; by eauto.
  - intros d w Hno. destruct (transfer d w) as [r w'] eqn:H.
    destruct w as [[acc txs led] tx fs rs ck lg].
    unfold transfer in H.
    exec_in H; repeat step_in H;
      try refuse Hno; injection H as <- <-; simpl; by eauto.
Qed.

Lemma unacceptable_requests_write_nothing_witness :
  (¬ acceptable 0 "USD" "salary") ∧
  durable (snd (deposit development (depositOf 0) (quiet twoAccounts)))
  = twoAccounts.
Proof.
  assert (¬ acceptable 0 "USD" "salary") as Hno
    by (intros [H _]; by vm_compute in H).
  split; [exact Hno|].
  exact (proj2 (proj1 unacceptable_requests_write_nothing development
                  (depositOf 0) (quiet twoAccounts) Hno)).
Defined.

(** * The fallback deposit, interrupted *)

(** X9. The fallback deposit is not atomic.  When the store fails on
    the fourth call, the save of the account, [depositWithoutTransaction]
    throws, and the PENDING transaction and the ledger entry written before
    stay in the store while the account is unchanged. *)
Theorem fallback_deposit_interrupted d w a fs :
  faults w = false :: false :: false :: true :: fs →
  accounts (durable w) !! DepositInput.accountId d = Some a →
  Account.userId a = DepositInput.userId d →
  Account.currency a = DepositInput.currency d →
  acceptable (DepositInput.amount d) (DepositInput.currency d)
             (DepositInput.description d) →
  ∃ id t,
    fst (depositWithoutTransaction d w) = Throw MongoError ∧
    transactions (durable w) !! id = None ∧
    Transaction.status t = PENDING ∧
    Transaction.completedAt t = None ∧
    Transaction.amount t = DepositInput.amount d ∧
    durable (snd (depositWithoutTransaction d w)) =
      mkCollections
        (accounts (durable w))
        (<[id := t]> (transactions (durable w)))
        (ledgerEntries (durable w) ++
         [LedgerEntry.mk id (DepositInput.accountId d) DEBIT
            (DepositInput.amount d) (DepositInput.currency d)
            (Account.balance a + DepositInput.amount d)
            ("Deposit: " +:+ DepositInput.description d)]).
Proof.
  destruct w as [[acc txs led] tx fs0 rs ck lg]. simpl.
  intros -> Ha Hu Hc Hok. unfold depositWithoutTransaction. exec.
  rewrite (matchAccount_owned _ _ _ _ _ _ Ha Hu). exec.
  destruct (decide (Account.currency a ≠ _)) as [Hne|_]; [done|].
  destruct rs; exec;
    rewrite (acceptable_Transaction _ _ _ _ _ _ _ _ _ _ _ Hok); exec;
    rewrite (acceptable_LedgerEntry _ _ _ _ _ _ "Deposit: " _ Hok); exec;
    (eexists _, _; split_and!; revgoals;
     [reflexivity|reflexivity|reflexivity|reflexivity| |reflexivity]);
    apply not_elem_of_dom, (fresh_unused _ acc txs led).
Qed.

Lemma fallback_deposit_interrupted_witness :
  fst (depositWithoutTransaction (depositOf (Q2Qc 500))
         (failing ledgerInsertFails twoAccounts))
  = Throw MongoError.
Proof.
  destruct (fallback_deposit_interrupted (depositOf (Q2Qc 500))
              (failing ledgerInsertFails twoAccounts)
              (usd alice 1000000001 (Q2Qc 1000) ACTIVE) [])
    as (id & t & H & _); [reflexivity..| |exact H].
  split_and!; [|done..]. vm_compute. discriminate.
Defined.

(** * What a deposit may do to the accounts, however it ends *)

Lemma depositWithoutTransaction_accounts d w r w' :
  depositWithoutTransaction d w = (r, w') →
  accounts (durable w') = accounts (durable w) ∨
  ∃ a, accounts (durable w) !! DepositInput.accountId d = Some a ∧
       accounts (durable w')
       = <[DepositInput.accountId d := raise (DepositInput.amount d) a]>
           (accounts (durable w)).
Proof.
  intros H. destruct w as [[acc txs led] tx fs rs ck lg].
  unfold depositWithoutTransaction in H.
  exec_in H; repeat step_in H; injection H as <- <-; finish_inv;
    first [by left | right; by eexists].
Qed.

Lemma sameButBalances_refl a : sameButBalances a a.
Proof. split; [by destruct a|ring]. Qed.

Lemma sameButBalances_shift a x :
  sameButBalances a
    (Account.set_balances (Account.balance a + x)
                          (Account.availableBalance a + x) a).
Proof. split; [reflexivity|simpl; ring]. Qed.

Lemma sameButBalances_trans a b c :
  sameButBalances a b → sameButBalances b c → sameButBalances a c.
Proof.
  intros [Hb Hb'] [Hc Hc']. split.
  - rewrite Hc. rewrite Hb. done.
  - transitivity ((Account.balance c - Account.balance b)
                  + (Account.balance b - Account.balance a)); [ring|].
    rewrite Hc', Hb'. ring.
Qed.

Lemma onlyBalancesMoved_same c c' :
  accounts c' = accounts c → onlyBalancesMoved c c'.
Proof.
  intros H i. rewrite H. destruct (accounts c !! i); [|done].
  apply sameButBalances_refl.
Qed.

Lemma onlyBalancesMoved_insert c c' i a a' :
  accounts c !! i = Some a → sameButBalances a a' →
  accounts c' = <[i := a']> (accounts c) → onlyBalancesMoved c c'.
Proof.
  intros Ha Haa H j. rewrite H. destruct (decide (i = j)) as [<-|Hj].
  - by rewrite lookup_insert_eq, Ha.
  - rewrite lookup_insert_ne by done. destruct (accounts c !! j); [|done].
    apply sameButBalances_refl.
Qed.

Lemma onlyBalancesMoved_trans c1 c2 c3 :
  onlyBalancesMoved c1 c2 → onlyBalancesMoved c2 c3 →
  onlyBalancesMoved c1 c3.
Proof.
  intros H12 H23 i. specialize (H12 i). specialize (H23 i).
  destruct (accounts c1 !! i), (accounts c2 !! i), (accounts c3 !! i);
    try done. by eapply sameButBalances_trans.
Qed.

(** X10. Deposits, withdrawals and transfers touch nothing of an
    account but its two balances, which move by the same amount, and they
    neither create nor delete accounts, however they end. *)
Theorem movements_touch_only_balances w :
  (∀ env d, onlyBalancesMoved (durable w) (durable (snd (deposit env d w)))) ∧
  (∀ d, onlyBalancesMoved (durable w) (durable (snd (withdraw d w)))) ∧
  (∀ d, onlyBalancesMoved (durable w) (durable (snd (transfer d w)))).
Proof.
  split_and!.
  - intros env d. destruct (deposit env d w) as [[t|e] w'] eqn:H; simpl.
    + apply deposit_Return_inv in H
        as (a & tid & at_ & Ha & Hu & Hc & Hfresh & Ht & ->).
      eapply onlyBalancesMoved_insert; [done| |done].
      apply sameButBalances_shift.
    + unfold deposit, try_catch in H.
      destruct (useTransactions env).
      * destruct (depositWithTransaction d w) as [[t|e1] w1] eqn:E; [done|].
        apply depositWithTransaction_atomic in E.
        assert (durable w' = durable w1) as ->
          by (revert H; apply harmless_bind;
              [apply harmless_logger|intros; apply harmless_throw]).
        apply onlyBalancesMoved_same. by rewrite E.
      * destruct (depositWithoutTransaction d w) as [[t|e1] w1] eqn:E;
          [done|].
        assert (durable w' = durable w1) as ->
          by (revert H; apply harmless_bind;
              [apply harmless_logger|intros; apply harmless_throw]).
        destruct (depositWithoutTransaction_accounts _ _ _ _ E)
          as [Hs|(a & Ha & Hs)].
        -- by apply onlyBalancesMoved_same.
        -- eapply onlyBalancesMoved_insert; [done| |done].
           apply sameButBalances_shift.
  - intros d. destruct (withdraw d w) as [[t|e] w'] eqn:H; simpl.
    + apply withdraw_Return_inv in H
        as (a & tid & at_ & Ha & Hu & Hc & Hav & Hfresh & Ht & ->).
      eapply onlyBalancesMoved_insert; [done| |done].
      apply (sameButBalances_shift a (- WithdrawalInput.amount d)).
    + apply withdraw_atomic in H. apply onlyBalancesMoved_same.
      by rewrite H.
  - intros d. destruct (transfer d w) as [[t|e] w'] eqn:H; simpl.
    + apply transfer_Return_inv in H
        as (src & dst & tid & at_ & Hs & Hu & Hd & Hcs & Hcd & Hav & Hfresh
            & Ht & ->).
      apply (onlyBalancesMoved_trans _
               (mkCollections
                  (<[TransferInput.sourceAccountId d :=
                       lower (TransferInput.amount d) src]>
                     (accounts (durable w))) ∅ [])).
      * apply (onlyBalancesMoved_insert _ _
                 (TransferInput.sourceAccountId d) src
                 (lower (TransferInput.amount d) src)); [done| |done].
        apply (sameButBalances_shift src (- TransferInput.amount d)).
      * destruct (decide (TransferInput.sourceAccountId d
                          = TransferInput.destinationAccountId d))
          as [e|Hne].
        -- eapply (onlyBalancesMoved_insert _ _ _
                     (lower (TransferInput.amount d) src));
             [by simpl; rewrite e, lookup_insert_eq| |done].
           rewrite e in Hs. simplify_eq.
           split; [reflexivity|simpl; ring].
        -- eapply (onlyBalancesMoved_insert _ _ _ dst);
             [by simpl; rewrite lookup_insert_ne| |done].
           apply sameButBalances_shift.
    + apply transfer_atomic in H. apply onlyBalancesMoved_same.
      by rewrite H.
Qed.

(** * Which check answers first, when the store does not fail *)

Lemma not_acceptable_Transaction tid u ty amount cur src dst desc st md at_ :
  ¬ acceptable amount cur desc →
  Transaction.validate
    (Transaction.mk tid u ty amount cur src dst desc st md at_) = false.
Proof.
  intros Hno. destruct (Transaction.validate _) eqn:H; [|done].
  destruct Hno.
  unfold Transaction.validate in H. simpl in H.
  rewrite !andb_true_iff, !negb_true_iff in H.
  destruct H as [[Ha Hd] Hc]. apply bool_decide_eq_true in Ha.
  apply String.eqb_neq in Hd, Hc. done.
Qed.

(** Decide a comparison in the goal from the hypotheses at hand. *)
Ltac settle :=
  first [ assumption
        | congruence
        | apply Qcle_not_lt; assumption
        | let Hn := fresh in intros Hn; apply Hn; assumption ].

Ltac table_row :=
  repeat match goal with
  | |- context [decide ?P] =>
      first [ rewrite (decide_True (P := P)) by settle
            | rewrite (decide_False (P := P)) by settle ]; exec
  | |- context [match ?rs with [] => _ | _ :: _ => _ end] =>
      is_var rs; destruct rs; exec
  | Hok : acceptable _ _ _ |- context [Transaction.validate ?t] =>
      let E := fresh in
      destruct (Transaction.validate t) eqn:E;
      [ clear E
      | exfalso; revert E;
        rewrite (acceptable_Transaction _ _ _ _ _ _ _ _ _ _ _ Hok);
        discriminate ]; exec
  | Hok : acceptable _ _ _ |- context [LedgerEntry.validate ?e] =>
      let E := fresh in
      destruct (LedgerEntry.validate e) eqn:E;
      [ clear E
      | exfalso; revert E;
        rewrite (acceptable_LedgerEntry _ _ _ _ _ _ _ _ Hok); discriminate ];
      exec
  | Hno : ¬ acceptable _ _ _ |- context [Transaction.validate ?t] =>
      let E := fresh in
      destruct (Transaction.validate t) eqn:E;
      [ exfalso; revert E;
        rewrite (not_acceptable_Transaction _ _ _ _ _ _ _ _ _ _ _ Hno);
        discriminate
      | clear E ]; exec
  end.

(** X11. The outcomes of a deposit when the store answers: "Account not
    found" when the caller owns no account of that id, "Currency mismatch"
    when the currencies differ, a validation error when the schemas refuse
    the request, and a transaction otherwise. *)
Theorem deposit_outcomes env d w :
  faults w = [] →
  ((¬ ∃ a, accounts (durable w) !! DepositInput.accountId d = Some a
           ∧ Account.userId a = DepositInput.userId d) →
   fst (deposit env d w) = Throw (Error "Account not found")) ∧
  (∀ a, accounts (durable w) !! DepositInput.accountId d = Some a →
        Account.userId a = DepositInput.userId d →
        (Account.currency a ≠ DepositInput.currency d →
         fst (deposit env d w) = Throw (Error "Currency mismatch")) ∧
        (Account.currency a = DepositInput.currency d →
         ¬ acceptable (DepositInput.amount d) (DepositInput.currency d)
                      (DepositInput.description d) →
         fst (deposit env d w) = Throw ValidationError) ∧
        (Account.currency a = DepositInput.currency d →
         acceptable (DepositInput.amount d) (DepositInput.currency d)
                    (DepositInput.description d) →
         ∃ t, fst (deposit env d w) = Return t)).
Proof.
  destruct w as [[acc txs led] tx fs rs ck lg]. simpl. intros ->.
  unfold deposit, depositWithTransaction, depositWithoutTransaction.
  split.
  - intros Hno.
    assert (matchAccount (ByIdAndUser (DepositInput.accountId d)
                            (DepositInput.userId d))
              (mkCollections acc txs led) = None) as Hm.
    { destruct (matchAccount _ _) as [[i a]|] eqn:E; [|done].
      apply matchAccount_ByIdAndUser in E as (-> & Ha & Hu).
      destruct Hno. by exists a. }
    destruct (useTransactions env); exec; by rewrite Hm.
  - intros a Ha Hu.
    pose proof (matchAccount_owned _ txs led _ _ _ Ha Hu) as Hm.
    split_and!; intros;
      destruct (useTransactions env); exec; rewrite Hm; exec;
      table_row; first [reflexivity | by eexists].
Qed.

Lemma deposit_outcomes_witness :
  fst (deposit development
         (DepositInput.mk bob 1 (Q2Qc 500) "USD" "salary" None)
         (quiet twoAccounts))
  = Throw (Error "Account not found").
Proof.
  apply (deposit_outcomes development
           (DepositInput.mk bob 1 (Q2Qc 500) "USD" "salary" None)
           (quiet twoAccounts) eq_refl).
  intros (a & Ha & Hu). vm_compute in Ha. injection Ha as <-.
  discriminate Hu.
Defined.

(** X12. The outcomes of a withdrawal when the store answers: "Account
    not found" when the caller owns no account of that id, "Currency
    mismatch" when the currencies differ, "Insufficient funds" when the
    available balance is under the amount, a validation error when the
    schemas refuse the request, and a transaction otherwise. *)
Theorem withdraw_outcomes d w :
  faults w = [] →
  ((¬ ∃ a, accounts (durable w) !! WithdrawalInput.accountId d = Some a
           ∧ Account.userId a = WithdrawalInput.userId d) →
   fst (withdraw d w) = Throw (Error "Account not found")) ∧
  (∀ a, accounts (durable w) !! WithdrawalInput.accountId d = Some a →
        Account.userId a = WithdrawalInput.userId d →
        (Account.currency a ≠ WithdrawalInput.currency d →
         fst (withdraw d w) = Throw (Error "Currency mismatch")) ∧
        (Account.currency a = WithdrawalInput.currency d →
         Account.availableBalance a < WithdrawalInput.amount d →
         fst (withdraw d w) = Throw (Error "Insufficient funds")) ∧
        (Account.currency a = WithdrawalInput.currency d →
         WithdrawalInput.amount d ≤ Account.availableBalance a →
         ¬ acceptable (WithdrawalInput.amount d) (WithdrawalInput.currency d)
                      (WithdrawalInput.description d) →
         fst (withdraw d w) = Throw ValidationError) ∧
        (Account.currency a = WithdrawalInput.currency d →
         WithdrawalInput.amount d ≤ Account.availableBalance a →
         acceptable (WithdrawalInput.amount d) (WithdrawalInput.currency d)
                    (WithdrawalInput.description d) →
         ∃ t, fst (withdraw d w) = Return t)).
Proof.
  destruct w as [[acc txs led] tx fs rs ck lg]. simpl. intros ->.
  unfold withdraw. split.
  - intros Hno.
    assert (matchAccount (ByIdAndUser (WithdrawalInput.accountId d)
                            (WithdrawalInput.userId d))
              (mkCollections acc txs led) = None) as Hm.
    { destruct (matchAccount _ _) as [[i a]|] eqn:E; [|done].
      apply matchAccount_ByIdAndUser in E as (-> & Ha & Hu).
      destruct Hno. by exists a. }
    exec; by rewrite Hm.
  - intros a Ha Hu.
    pose proof (matchAccount_owned _ txs led _ _ _ Ha Hu) as Hm.
    split_and!; intros; exec; rewrite Hm; exec; table_row;
      first [reflexivity | by eexists].
Qed.

Lemma withdraw_outcomes_witness :
  fst (withdraw (withdrawalOf (Q2Qc 2000)) (quiet twoAccounts))
  = Throw (Error "Insufficient funds").
Proof.
  destruct (withdraw_outcomes (withdrawalOf (Q2Qc 2000)) (quiet twoAccounts)
              eq_refl) as [_ H].
  destruct (H (usd alice 1000000001 (Q2Qc 1000) ACTIVE))
    as (_ & Hfunds & _); [reflexivity..|].
  apply Hfunds; [reflexivity|]. vm_compute. reflexivity.
Defined.

(** X13. The order of the checks of a transfer whose two accounts are
    found, when the store answers: the currency of the source, then the
    currency of the destination, then the funds of the source, then the
    schemas; past all four the transfer returns. *)
Theorem transfer_checks_in_order d w src dst :
  faults w = [] →
  accounts (durable w) !! TransferInput.sourceAccountId d = Some src →
  Account.userId src = TransferInput.userId d →
  accounts (durable w) !! TransferInput.destinationAccountId d = Some dst →
  (Account.currency src ≠ TransferInput.currency d →
   fst (transfer d w) = Throw (Error "Source account currency mismatch")) ∧
  (Account.currency src = TransferInput.currency d →
   Account.currency dst ≠ TransferInput.currency d →
   fst (transfer d w)
   = Throw (Error "Destination account currency mismatch")) ∧
  (Account.currency src = TransferInput.currency d →
   Account.currency dst = TransferInput.currency d →
   Account.availableBalance src < TransferInput.amount d →
   fst (transfer d w) = Throw (Error "Insufficient funds")) ∧
  (Account.currency src = TransferInput.currency d →
   Account.currency dst = TransferInput.currency d →
   TransferInput.amount d ≤ Account.availableBalance src →
   ¬ acceptable (TransferInput.amount d) (TransferInput.currency d)
                (TransferInput.description d) →
   fst (transfer d w) = Throw ValidationError) ∧
  (Account.currency src = TransferInput.currency d →
   Account.currency dst = TransferInput.currency d →
   TransferInput.amount d ≤ Account.availableBalance src →
   acceptable (TransferInput.amount d) (TransferInput.currency d)
              (TransferInput.description d) →
   ∃ t, fst (transfer d w) = Return t).
Proof.
  destruct w as [[acc txs led] tx fs rs ck lg]. simpl.
  intros -> Hs Hu Hd. unfold transfer.
  pose proof (matchAccount_owned _ txs led _ _ _ Hs Hu) as Hm.
  split_and!; intros; exec; rewrite Hm; exec;
    rewrite matchAccount_any, Hd; cbn [fmap option_fmap option_map]; exec;
    table_row; first [reflexivity | by eexists].
Qed.

Lemma transfer_checks_in_order_witness :
  fst (transfer (transferOf (Q2Qc 2000)) (quiet twoAccounts))
  = Throw (Error "Insufficient funds").
Proof.
  destruct (transfer_checks_in_order (transferOf (Q2Qc 2000))
              (quiet twoAccounts)
              (usd alice 1000000001 (Q2Qc 1000) ACTIVE)
              (usd bob 1000000002 0 ACTIVE))
    as (_ & _ & Hfunds & _); [reflexivity..|].
  apply Hfunds; [reflexivity..|]. vm_compute. reflexivity.
Defined.

(** * The rest of the account service *)

Lemma matchAccount_not_owned acc txs led i u :
  (¬ ∃ a, acc !! i = Some a ∧ Account.userId a = u) →
  matchAccount (ByIdAndUser i u) (mkCollections acc txs led) = None.
Proof.
  intros Hno. destruct (matchAccount _ _) as [[n a]|] eqn:E; [|done].
  apply matchAccount_ByIdAndUser in E as (-> & Ha & Hu).
  destruct Hno. by exists a.
Qed.








(** * Movements as increments *)

(** X16. The accounts after a successful deposit are those after
    [updateAccountBalance] by the amount, after a withdrawal those after
    [updateAccountBalance] by its opposite, and after a transfer between two
    different accounts those after the two increments in a row. *)
Theorem movements_are_increments :
  (∀ env d w t w',
     deposit env d w = (Return t, w') →
     accounts (durable w')
     = accounts (durable (snd (updateAccountBalance
                                 (DepositInput.accountId d)
                                 (DepositInput.amount d) None
                                 (set_faults [] w))))) ∧
  (∀ d w t w',
     withdraw d w = (Return t, w') →
     accounts (durable w')
     = accounts (durable (snd (updateAccountBalance
                                 (WithdrawalInput.accountId d)
                                 (- WithdrawalInput.amount d) None
                                 (set_faults [] w))))) ∧
  (∀ d w t w',
     transfer d w = (Return t, w') →
     TransferInput.sourceAccountId d ≠ TransferInput.destinationAccountId d →
     accounts (durable w')
     = accounts
         (durable
            (snd (updateAccountBalance
                    (TransferInput.destinationAccountId d)
                    (TransferInput.amount d) None
                    (snd (updateAccountBalance
                            (TransferInput.sourceAccountId d)
                            (- TransferInput.amount d) None
                            (set_faults [] w))))))).
Proof.
  split_and!.
  - intros env d w t w' H.
    destruct (deposit_Return_inv _ _ _ _ _ H)
      as (a & tid & at_ & Ha & _ & _ & _ & _ & ->).
    destruct w as [[acc txs led] tx fs rs ck lg]. simpl in *.
    unfold updateAccountBalance, Account_findOneAndUpdate. exec.
    by rewrite matchAccount_any, Ha.
  - intros d w t w' H.
    destruct (withdraw_Return_inv _ _ _ _ H)
      as (a & tid & at_ & Ha & _ & _ & _ & _ & _ & ->).
    destruct w as [[acc txs led] tx fs rs ck lg]. simpl in *.
    unfold updateAccountBalance, Account_findOneAndUpdate. exec.
    by rewrite matchAccount_any, Ha.
  - intros d w t w' H Hne.
    destruct (transfer_Return_inv _ _ _ _ H)
      as (src & dst & tid & at_ & Hs & _ & Hd & _ & _ & _ & _ & _ & ->).
    destruct w as [[acc txs led] tx fs rs ck lg]. simpl in *.
    unfold updateAccountBalance, Account_findOneAndUpdate. exec.
    rewrite matchAccount_any, Hs. cbn [fmap option_fmap option_map]. exec.
    by rewrite matchAccount_any, lookup_insert_ne, Hd.
Qed.

Lemma movements_are_increments_witness :
  accounts (durable (snd (deposit development (depositOf (Q2Qc 500))
                            (quiet twoAccounts))))
  = accounts (durable (snd (updateAccountBalance 1 (Q2Qc 500) None
                              (quiet twoAccounts)))).
Proof.
  destruct (deposit development (depositOf (Q2Qc 500)) (quiet twoAccounts))
    as [[t|e] w'] eqn:E; [|vm_compute in E; discriminate E].
  exact (proj1 movements_are_increments _ _ _ _ _ E).
Defined.

(** * Closing twice *)

(** X17. [closeAccount] on an account of the caller with balance zero
    returns it with status CLOSED and stores that; a second call succeeds as
    well, and leaves the store as the first one did. *)
Theorem closeAccount_again env i u w a :
  faults w = [] → txn w = None →
  accounts (durable w) !! i = Some a →
  Account.userId a = u →
  Account.balance a = 0 →
  fst (closeAccount env i u w) = Return (i, Account.set_status CLOSED a) ∧
  durable (snd (closeAccount env i u w))
  = set_accounts <[i := Account.set_status CLOSED a]> (durable w) ∧
  fst (closeAccount env i u (snd (closeAccount env i u w)))
  = Return (i, Account.set_status CLOSED a) ∧
  durable (snd (closeAccount env i u (snd (closeAccount env i u w))))
  = durable (snd (closeAccount env i u w)).
Proof.
  destruct w as [[acc txs led] tx fs rs ck lg]. simpl.
  intros -> -> Ha Hu Hb.
  assert (∀ acc', acc' !! i = Some (Account.set_status CLOSED a) →
            matchAccount (ByIdAndUser i u) (mkCollections acc' txs led)
            = Some (i, Account.set_status CLOSED a)) as Hm'
    by (intros; by apply matchAccount_owned).
  unfold closeAccount, closeAccountWithTransaction,
    closeAccountWithoutTransaction.
  destruct (useTransactions env); exec;
    rewrite (matchAccount_owned _ _ _ _ _ _ Ha Hu); exec;
    (destruct (decide (Account.balance a ≠ 0)); [done|]); exec;
    rewrite Hm' by (by rewrite lookup_insert_eq); exec;
    (destruct (decide _) as [Hn|_]; [by destruct Hn|]); exec;
    by rewrite insert_insert_eq.
Qed.

Lemma closeAccount_again_witness :
  fst (closeAccount development 2 bob
         (snd (closeAccount development 2 bob (quiet twoAccounts))))
  = Return (2%N, usd bob 1000000002 0 CLOSED).
Proof.
  destruct (closeAccount_again development 2 bob (quiet twoAccounts)
              (usd bob 1000000002 0 ACTIVE))
    as (_ & _ & H & _); [reflexivity..|exact H].
Defined.

(** X18. [closeAccount] throws "Account not found", and changes
    nothing, when the caller owns no account of that id. *)
Theorem closeAccount_not_found env i u w :
  faults w = [] →
  (¬ ∃ a, accounts (durable w) !! i = Some a ∧ Account.userId a = u) →
  fst (closeAccount env i u w) = Throw (Error "Account not found") ∧
  durable (snd (closeAccount env i u w)) = durable w.
Proof.
  destruct w as [[acc txs led] tx fs rs ck lg]. simpl. intros -> Hno.
  unfold closeAccount, closeAccountWithTransaction,
    closeAccountWithoutTransaction.
  destruct (useTransactions env); exec;
    by rewrite (matchAccount_not_owned _ _ _ _ _ Hno).
Qed.

Lemma closeAccount_not_found_witness :
  fst (closeAccount development 1 bob (quiet twoAccounts))
  = Throw (Error "Account not found").
Proof.
  apply (closeAccount_not_found development 1 bob (quiet twoAccounts) eq_refl).
  intros (a & Ha & Hu). vm_compute in Ha. injection Ha as <-.
  discriminate Hu.
Defined.

(** * Reading *)

Lemma readOnly_bind {A B} (m : Async A) (k : A → Async B) :
  readOnly m → (∀ a, readOnly (k a)) → readOnly (bind m k).
Proof.
  intros Hm Hk w r w' H. unfold bind in H.
  destruct (m w) as [[a|e] w1] eqn:E; destruct (Hm _ _ _ E) as [Hd Ht].
  - destruct (Hk _ _ _ _ H) as [Hd' Ht']. split; congruence.
  - by injection H as <- <-.
Qed.

Lemma readOnly_try_catch {A} (b : Async A) h :
  readOnly b → (∀ e, readOnly (h e)) → readOnly (try_catch b h).
Proof.
  intros Hb Hh w r w' H. unfold try_catch in H.
  destruct (b w) as [[a|e] w1] eqn:E; destruct (Hb _ _ _ E) as [Hd Ht].
  - by injection H as <- <-.
  - destruct (Hh _ _ _ _ H) as [Hd' Ht']. split; congruence.
Qed.

Lemma readOnly_storeCall : readOnly storeCall.
Proof.
  intros w r w' H. unfold storeCall in H.
  destruct (faults w) as [|[] fs]; by injection H as <- <-.
Qed.

Lemma readOnly_pure {A} (f : World → Completion A) : readOnly (λ w, (f w, w)).
Proof. by intros w r w' [= <- <-]. Qed.

Lemma readOnly_logger l s : readOnly (logger l s).
Proof. by intros w r w' [= <- <-]. Qed.

Lemma readOnly_rethrow {A} s e :
  readOnly (await _ ← logger ERROR s; @throw A e).
Proof.
  apply readOnly_bind; [apply readOnly_logger|intros _].
  apply (readOnly_pure (λ _, Throw e)).
Qed.

Lemma readOnly_LedgerEntry_find i skip limit :
  readOnly (LedgerEntry_find i skip limit).
Proof.
  apply readOnly_bind; [apply readOnly_storeCall|intros _].
  destruct (skip <? 0)%Z; [apply (readOnly_pure (λ _, Throw MongoError))|].
  by intros w r w' [= <- <-].
Qed.

(** X19. The four lookups of the services never write, whatever the store
    answers: not to the committed collections, not to the copy of an open
    transaction. *)
Theorem lookups_write_nothing :
  (∀ i u, readOnly (getTransactionById i u)) ∧
  (∀ i u, readOnly (getAccountById i u)) ∧
  (∀ n, readOnly (getAccountByNumber n)) ∧
  (∀ i page limit, readOnly (getLedgerEntries i page limit)).
Proof.
  split_and!; intros;
    (apply readOnly_try_catch; [|intros; apply readOnly_rethrow]).
  - apply readOnly_bind; [apply readOnly_storeCall|intros _].
    apply (readOnly_pure (λ w, Return _)).
  - apply readOnly_bind; [apply readOnly_storeCall|intros _].
    apply (readOnly_pure (λ w, Return _)).
  - apply readOnly_bind; [apply readOnly_storeCall|intros _].
    apply (readOnly_pure (λ w, Return _)).
  - apply readOnly_bind.
    { apply readOnly_bind; [apply readOnly_storeCall|intros _].
      apply (readOnly_pure (λ w, Return _)). }
    intros total. apply readOnly_bind; [apply readOnly_LedgerEntry_find|].
    intros entries. apply (readOnly_pure (λ w, Return _)).
Qed.

Lemma getTransactionById_quiet i u w :
  faults w = [] →
  getTransactionById i u w = (Return (matchTransaction i u (durable w)), w).
Proof. destruct w as [c tx fs rs ck lg]. simpl. by intros ->. Qed.

Lemma getAccountById_quiet i u w :
  faults w = [] →
  getAccountById i u w
  = (Return (matchAccount (ByIdAndUser i u) (durable w)), w).
Proof. destruct w as [c tx fs rs ck lg]. simpl. by intros ->. Qed.

Lemma getAccountByNumber_quiet n w :
  faults w = [] →
  getAccountByNumber n w
  = (Return (matchAccount (ByAccountNumber n) (durable w)), w).
Proof. destruct w as [c tx fs rs ck lg]. simpl. by intros ->. Qed.

Lemma matchTransaction_insert acc txs led i t u :
  matchTransaction i u (mkCollections acc (<[i := t]> txs) led)
  = if decide (Transaction.userId t = u) then Some (i, t) else None.
Proof. unfold matchTransaction. simpl. by rewrite lookup_insert_eq. Qed.

(** X20. What a successful deposit wrote can be read back: its owner finds the
    completed transaction under its id, nobody else does, and the account
    shows the raised balance. *)
Theorem deposit_can_be_read_back env d w t w' :
  deposit env d w = (Return t, w') →
  faults w' = [] →
  getTransactionById (_id t) (DepositInput.userId d) w' = (Return (Some t), w') ∧
  Transaction.status (fields t) = COMPLETED ∧
  (∀ u, u ≠ DepositInput.userId d →
        getTransactionById (_id t) u w' = (Return None, w')) ∧
  (∃ a, accounts (durable w) !! DepositInput.accountId d = Some a ∧
        getAccountById (DepositInput.accountId d) (DepositInput.userId d) w'
        = (Return (Some (DepositInput.accountId d,
                         raise (DepositInput.amount d) a)), w')).
Proof.
  intros H Hq.
  destruct (deposit_Return_inv _ _ _ _ _ H)
    as (a & tid & at_ & Ha & Hu & _ & _ & Ht & Hw).
  destruct t as [i t]. simpl in *. subst t.
  split_and!; [|done| |exists a; split; [done|]].
  - rewrite getTransactionById_quiet, Hw, matchTransaction_insert by done.
    simpl. by destruct (decide _).
  - intros u Hne.
    rewrite getTransactionById_quiet, Hw, matchTransaction_insert by done.
    simpl. by destruct (decide _).
  - rewrite getAccountById_quiet, Hw by done.
    by erewrite matchAccount_owned by (by rewrite ?lookup_insert_eq).
Qed.

Lemma deposit_can_be_read_back_witness :
  ∃ t w',
    deposit development (depositOf (Q2Qc 500)) (quiet twoAccounts)
    = (Return t, w') ∧
    getTransactionById (_id t) alice w' = (Return (Some t), w') ∧
    getTransactionById (_id t) bob w' = (Return None, w').
Proof.
  destruct (deposit development (depositOf (Q2Qc 500)) (quiet twoAccounts))
    as [[t|e] w'] eqn:E; [|vm_compute in E; discriminate E].
  assert (faults w' = []) as Hq.
  { pose proof E as E'. vm_compute in E'. injection E' as _ <-. reflexivity. }
  destruct (deposit_can_be_read_back _ _ _ _ _ E Hq) as (H1 & _ & H2 & _).
  exists t, w'. split_and!; [reflexivity|exact H1|].
  apply H2. discriminate.
Defined.

Lemma matchAccount_only_number c n i a :
  accounts c !! i = Some a → Account.accountNumber a = n →
  (∀ j b, accounts c !! j = Some b → Account.accountNumber b = n → j = i) →
  matchAccount (ByAccountNumber n) c = Some (i, a).
Proof.
  intros Ha Hn Huniq.
  destruct (matchAccount (ByAccountNumber n) c) as [[j b]|] eqn:E.
  - apply matchAccount_ByAccountNumber_Some in E as [Hb Hbn].
    unfold _id, fields in *. simpl in *.
    pose proof (Huniq _ _ Hb Hbn) as ->. by simplify_eq.
  - destruct (proj1 (matchAccount_ByAccountNumber_None c n) E i a Ha Hn).
Qed.

(** X21. In a store without two accounts of one number, the account number is a
    key: the lookup by number answers the account that carries it. *)
Theorem account_found_by_its_number w i a :
  uniqueNumbers (durable w) →
  faults w = [] →
  accounts (durable w) !! i = Some a →
  getAccountByNumber (Account.accountNumber a) w = (Return (Some (i, a)), w).
Proof.
  intros Hu Hq Ha. rewrite getAccountByNumber_quiet by done.
  rewrite (matchAccount_only_number _ _ i a); try done.
  intros j b Hb Hn. by apply (Hu _ _ _ _ Hb Ha).
Qed.

Lemma afterOpening_uniqueNumbers : uniqueNumbers afterOpening.
Proof.
  intros i j a b Hi Hj _. simpl in Hi, Hj.
  apply lookup_insert_Some in Hi as [[<- _]|[_ Hi]];
    [|by rewrite lookup_empty in Hi].
  apply lookup_insert_Some in Hj as [[<- _]|[_ Hj]];
    [done|by rewrite lookup_empty in Hj].
Qed.

Lemma account_found_by_its_number_witness :
  getAccountByNumber 1000000005 (quiet afterOpening)
  = (Return (Some opened), quiet afterOpening).
Proof.
  apply (account_found_by_its_number (quiet afterOpening) 0 (fields opened)).
  - apply afterOpening_uniqueNumbers.
  - reflexivity.
  - reflexivity.
Defined.

(** X22. A new account can be read back by its number and, by its owner only, by
    its id. *)
Theorem new_account_can_be_read_back accountData w account w' :
  createAccount accountData w = Some (Return account, w') →
  faults w' = [] →
  getAccountByNumber (Account.accountNumber (fields account)) w'
  = (Return (Some account), w') ∧
  getAccountById (_id account) (CreateAccountInput.userId accountData) w'
  = (Return (Some account), w') ∧
  (∀ u, u ≠ CreateAccountInput.userId accountData →
        getAccountById (_id account) u w' = (Return None, w')).
Proof.
  intros H Hq.
  destruct (createAccount_Return_inv _ _ _ _ H) as (Hfresh & _ & Hw).
  destruct (createAccount_Return_fields _ _ _ _ H)
    as (n & Hf & Hn & r & Hr).
  destruct account as [i a]. unfold _id, fields in *. cbn [fst snd] in *.
  assert (accounts (durable w') !! i = Some a) as Hi
    by (by rewrite Hw; simpl; rewrite lookup_insert_eq).
  assert (Account.userId a = CreateAccountInput.userId accountData) as Hu
    by (by rewrite Hf).
  split_and!.
  - rewrite getAccountByNumber_quiet by done.
    rewrite (matchAccount_only_number _ _ i a); [done|done|by rewrite Hf|].
    intros j b. rewrite Hw. simpl.
    destruct (decide (i = j)) as [|Hne]; [done|].
    rewrite lookup_insert_ne by done. intros Hb Hbn.
    destruct (proj1 (matchAccount_ByAccountNumber_None (durable w) n) Hn
                j b Hb).
    by rewrite Hbn, Hf.
  - rewrite getAccountById_quiet by done.
    destruct (durable w') as [acc txs led]. simpl in Hi.
    by rewrite (matchAccount_owned _ _ _ _ _ _ Hi Hu).
  - intros u Hne. rewrite getAccountById_quiet by done.
    destruct (durable w') as [acc txs led]. simpl in Hi.
    rewrite matchAccount_not_owned; [done|].
    intros (b & Hb & Hbu). by simplify_eq.
Qed.

Lemma new_account_can_be_read_back_witness :
  getAccountById 0 alice (quiet afterOpening)
  = (Return (Some opened), quiet afterOpening).
Proof.
  destruct (new_account_can_be_read_back openWith1000 emptyStore opened
              (quiet afterOpening)) as (_ & H & _);
    [vm_compute; reflexivity|reflexivity|exact H].
Defined.

(** * Pages *)

Lemma Qceiling_div (t : Z) (l : positive) :
  Qceiling (t # l) = ((t + Z.pos l - 1) / Z.pos l)%Z.
Proof.
  unfold Qceiling, Qfloor. simpl.
  apply Z.div_unique with (r := (Z.pos l - 1 - (- t) mod Z.pos l)%Z).
  - left. pose proof (Z.mod_pos_bound (- t) (Z.pos l) eq_refl). lia.
  - pose proof (Z.div_mod (- t) (Z.pos l) ltac:(done)). lia.
Qed.

Lemma ceilDiv_pos total limit :
  (0 < limit)%N →
  ceilDiv total limit = Finite ((total + limit - 1) / limit)%N.
Proof.
  destruct limit as [|l]; [lia|]. intros _. unfold ceilDiv. f_equal.
  rewrite Qceiling_div. apply N2Z.inj.
  rewrite Z2N.id by (apply Z.div_pos; lia).
  rewrite N2Z.inj_div, N2Z.inj_sub, N2Z.inj_add by lia. done.
Qed.

Lemma ceiling_bounds total limit :
  (0 < limit)%N →
  (total ≤ (total + limit - 1) / limit * limit < total + limit)%N.
Proof.
  intros Hl.
  pose proof (N.div_mod (total + limit - 1) limit ltac:(lia)) as Hdm.
  pose proof (N.mod_upper_bound (total + limit - 1) limit ltac:(lia)) as Hm.
  revert Hdm Hm.
  generalize ((total + limit - 1) / limit)%N
             ((total + limit - 1) `mod` limit)%N.
  intros q r Hdm Hm. nia.
Qed.

(** X23. With a limit of at least one entry per page, the metadata counts the
    pages needed for [total] entries, and announces a next page exactly when
    entries remain after this one.  With a limit of 0 the division is by
    zero: the number of pages is not a number when nothing is counted, and
    infinite otherwise, and then every page announces a next one. *)
Theorem getPaginationMetadata_pages page limit total :
  ((0 < limit)%N →
   ∃ pages,
     Pagination.totalPages (getPaginationMetadata page limit total)
     = Finite pages ∧
     (total ≤ pages * limit < total + limit)%N ∧
     (Pagination.hasNextPage (getPaginationMetadata page limit total) = true
      ↔ (page * limit < total)%N)) ∧
  (limit = 0%N →
   Pagination.totalPages (getPaginationMetadata page limit total)
   = (if (total =? 0)%N then NaN else Infinity) ∧
   Pagination.hasNextPage (getPaginationMetadata page limit total)
   = negb (total =? 0)%N) ∧
  (Pagination.hasPrevPage (getPaginationMetadata page limit total) = true
   ↔ (1 < page)%N).
Proof.
  unfold getPaginationMetadata. simpl. split_and!.
  - intros Hl. exists ((total + limit - 1) / limit)%N.
    rewrite ceilDiv_pos by done. simpl.
    pose proof (ceiling_bounds total limit Hl) as Hb. revert Hb.
    generalize ((total + limit - 1) / limit)%N. intros pages Hb.
    rewrite !N.ltb_lt. split_and!; try done; try lia; nia.
  - intros ->. simpl. by destruct (total =? 0)%N.
  - apply N.ltb_lt.
Qed.

Lemma getPaginationMetadata_pages_witness :
  ∃ pages,
    Pagination.totalPages (getPaginationMetadata 2 20 45) = Finite pages ∧
    (45 ≤ pages * 20 < 45 + 20)%N.
Proof.
  destruct (proj1 (getPaginationMetadata_pages 2 20 45))
    as (pages & H1 & H2 & _); [reflexivity|].
  exists pages. split; [exact H1|exact H2].
Defined.

Lemma getLedgerEntries_quiet i page limit w :
  faults w = [] → (1 ≤ page)%N →
  getLedgerEntries i (Some page) (Some limit) w
  = (Return
       (LedgerPage.mk
          (let rest := drop (N.to_nat ((page - 1) * limit))
                            (entriesOf i (durable w)) in
           if (limit =? 0)%N then rest else take (N.to_nat limit) rest)
          (N.of_nat (length (entriesOf i (durable w))))
          page limit
          (ceilDiv (N.of_nat (length (entriesOf i (durable w)))) limit)),
     w).
Proof.
  destruct w as [c tx fs rs ck lg]. simpl. intros -> Hp.
  unfold getLedgerEntries, LedgerEntry_countDocuments, LedgerEntry_find.
  exec. simpl.
  assert ((Z.of_N page - 1) * Z.of_N limit = Z.of_N ((page - 1) * limit))%Z
    as -> by (rewrite N2Z.inj_mul, N2Z.inj_sub by done; done).
  generalize ((page - 1) * limit)%N. intros n.
  destruct (Z.ltb_spec (Z.of_N n) 0) as [|_]; [lia|].
  by replace (Z.to_nat (Z.of_N n)) with (N.to_nat n) by lia.
Qed.




Lemma entriesOf_snoc i acc txs led e :
  LedgerEntry.accountId e = i →
  entriesOf i (mkCollections acc txs (led ++ [e]))
  = e :: entriesOf i (mkCollections acc txs led).
Proof.
  intros He. unfold entriesOf. simpl.
  rewrite filter_app, filter_cons_True, filter_nil by done.
  by rewrite reverse_app.
Qed.

(** X25. After a successful deposit the first page of the account's ledger
    starts with the entry of that deposit, and the balance it records is
    the balance the account now has. *)
Theorem deposit_tops_the_ledger env d w t w' :
  deposit env d w = (Return t, w') →
  faults w' = [] →
  ∃ r e a',
    getLedgerEntries (DepositInput.accountId d) None None w' = (Return r, w') ∧
    head (LedgerPage.entries r) = Some e ∧
    LedgerEntry.transactionId e = _id t ∧
    LedgerEntry.type e = DEBIT ∧
    LedgerEntry.amount e = DepositInput.amount d ∧
    accounts (durable w') !! DepositInput.accountId d = Some a' ∧
    LedgerEntry.balance e = Account.balance a' ∧
    LedgerPage.total r
    = (1 + N.of_nat (length (entriesOf (DepositInput.accountId d)
                                       (durable w))))%N.
Proof.
  intros H Hq.
  destruct (deposit_Return_inv _ _ _ _ _ H)
    as (a & tid & at_ & Ha & _ & _ & _ & _ & Hw).
  eexists _, _, (raise (DepositInput.amount d) a).
  change (getLedgerEntries (DepositInput.accountId d) None None)
    with (getLedgerEntries (DepositInput.accountId d) (Some 1%N) (Some 20%N)).
  rewrite getLedgerEntries_quiet, Hw by done.
  rewrite entriesOf_snoc by done. simpl.
  split_and!; try done.
  - by rewrite lookup_insert_eq.
  - destruct (durable w). unfold entriesOf. simpl. lia.
Qed.

Lemma deposit_tops_the_ledger_witness :
  ∃ t w' r e,
    deposit development (depositOf (Q2Qc 500)) (quiet twoAccounts)
    = (Return t, w') ∧
    getLedgerEntries 1 None None w' = (Return r, w') ∧
    head (LedgerPage.entries r) = Some e ∧
    LedgerEntry.transactionId e = _id t.
Proof.
  destruct (deposit development (depositOf (Q2Qc 500)) (quiet twoAccounts))
    as [[t|e] w'] eqn:E; [|vm_compute in E; discriminate E].
  assert (faults w' = []) as Hq.
  { pose proof E as E'. vm_compute in E'. injection E' as _ <-. reflexivity. }
  destruct (deposit_tops_the_ledger _ _ _ _ _ E Hq)
    as (r & e & a' & H1 & H2 & H3 & _).
  exists t, w', r, e. split_and!; [reflexivity|exact H1|exact H2|exact H3].
Defined.

(** * The error handler *)

(** X26. What the handler answers, for any error and any environment: one line
    is logged and nothing is thrown or stored; the body says "error" exactly
    for the codes from 500 on and "fail" otherwise; the code is never 0 and
    the message never empty; and in production an error that is not marked
    operational is answered with 500 and a fixed message, whatever the
    error carried. *)
Theorem errorHandler_response env err w :
  ∃ r line,
    errorHandler env err w
    = (Return r, set_log (log w ++ [line]) w) ∧
    (Response.status r = "error" ↔ (500 ≤ Response.code r)%Z) ∧
    (Response.status r = "fail" ↔ (Response.code r < 500)%Z) ∧
    Response.code r ≠ 0%Z ∧
    Response.message r ≠ "" ∧
    (NODE_ENV_var env = Some "production" →
     AppError.isOperational err ≠ Some true →
     r = Response.mk 500 "error" "Something went wrong") ∧
    (NODE_ENV_var env ≠ Some "production"
     ∨ AppError.isOperational err = Some true →
     AppError.message err ≠ "" →
     Response.message r = AppError.message err).
Proof.
  unfold errorHandler.
  set (statusCode := match AppError.statusCode err with
                     | Some c => if (c =? 0)%Z then 500%Z else c
                     | None => 500%Z
                     end).
  assert (statusCode ≠ 0%Z) as Hcode.
  { unfold statusCode. destruct (AppError.statusCode err) as [c|]; [|done].
    by destruct (Z.eqb_spec c 0). }
  set (message := if String.eqb (AppError.message err) ""
                  then "Internal Server Error" else AppError.message err).
  assert (message ≠ "") as Hmessage.
  { unfold message. by destruct (String.eqb_spec (AppError.message err) ""). }
  destruct (bool_decide _ && _) eqn:Hprod.
  - apply andb_true_iff in Hprod as [Hp Ho]. apply bool_decide_eq_true in Hp.
    eexists _, (if (statusCode =? 500)%Z then (ERROR, "Server Error:")
                else (WARN, "Operational Error:")).
    split.
    + unfold bind, logger, ret. by destruct (statusCode =? 500)%Z.
    + simpl. split_and!; try done.
      intros [Hne|Hop] _; [done|]. by rewrite Hop in Ho.
  - apply andb_false_iff in Hprod.
    eexists _, (if (statusCode =? 500)%Z then (ERROR, "Server Error:")
                else (WARN, "Operational Error:")).
    split.
    + unfold bind, logger, ret. by destruct (statusCode =? 500)%Z.
    + assert (NODE_ENV_var env = Some "production" →
              AppError.isOperational err ≠ Some true → False) as Hnot.
      { intros Hp Hop. destruct Hprod as [Hprod|Hprod].
        - by apply bool_decide_eq_false in Hprod.
        - by destruct (AppError.isOperational err) as [[]|]. }
      assert (AppError.message err ≠ "" → message = AppError.message err)
        as Hsame.
      { intros Hm. unfold message.
        by destruct (String.eqb_spec (AppError.message err) ""). }
      simpl. destruct (Z.leb_spec 500 statusCode); split_and!; try done;
        try lia; try (by split; [|lia]); try (by intros Hp Hop; destruct Hnot);
        by intros _.
Qed.

(** X27. The level of the logged line follows the status code alone: an error
    without a code, or with code 500, is a server error, every other one is
    logged as operational, marked so or not. *)
Theorem errorHandler_log_level env err w :
  log (snd (errorHandler env err w))
  = log w ++
    [if bool_decide (AppError.statusCode err = None
                     ∨ AppError.statusCode err = Some 0%Z
                     ∨ AppError.statusCode err = Some 500%Z)
     then (ERROR, "Server Error:") else (WARN, "Operational Error:")].
Proof.
  unfold errorHandler.
  destruct (AppError.statusCode err) as [c|]; cbv beta iota zeta.
  - destruct (Z.eqb_spec c 0) as [->|H0];
      [|destruct (Z.eqb_spec c 500) as [->|H500]].
    + rewrite (bool_decide_eq_true_2 (_ ∨ _)) by auto.
      by destruct (_ && _).
    + rewrite (bool_decide_eq_true_2 (_ ∨ _)) by auto.
      by destruct (_ && _).
    + rewrite (bool_decide_eq_false_2 (_ ∨ _))
        by (intros [|[[=]|[=]]]; done).
      destruct (Z.eqb_spec c 500); [done|]. by destruct (_ && _).
  - rewrite (bool_decide_eq_true_2 (_ ∨ _)) by auto. by destruct (_ && _).
Qed.

(** * Connecting *)

(** X28. [connectDB] ends the process, with code 1, exactly when the connection
    itself fails.  Whatever the probe for sessions answers, it returns, and
    it never writes to the collections. *)
Theorem connectDB_exits_only_when_connect_fails env w :
  (fst (connectDB env w) = Throw (ProcessExit 1)
   ↔ ∃ fs, faults w = true :: fs) ∧
  (fst (connectDB env w) = Return tt ↔ ¬ ∃ fs, faults w = true :: fs) ∧
  durable (snd (connectDB env w)) = durable w.
Proof.
  destruct w as [c tx fs rs ck lg]. unfold connectDB. simpl.
  destruct (useTransactions env).
  - destruct fs as [|[] [|[] fs]]; simpl;
      (split_and!; [split; [try done; by eexists|try done; by intros [? [=]]]
                   |split; [try done; by intros _ [? [=]]
                           |try done; intros H; destruct H; by eexists]
                   |done]).
  - destruct fs as [|[] fs]; simpl;
      (split_and!; [split; [try done; by eexists|try done; by intros [? [=]]]
                   |split; [try done; by intros _ [? [=]]
                           |try done; intros H; destruct H; by eexists]
                   |done]).
Qed.

(** * Opening an account: enough draws *)





(** * There and back *)



